(** * Hidden Markov Model notebook: forward, backward, Viterbi, Baum-Welch

    A shallow embedding of the functions of
    [Automatic_Speech_Recognition_HMM.ipynb] and the properties of its
    specification.

    Numbers.  The notebook computes with numpy [float64].  A finite double
    is idealised here as an exact rational (no rounding, no overflow, no
    underflow, no signed zero); the special values that a division by zero
    produces (infinities and NaN) are kept, because the notebook's results
    and its loop condition depend on them.  Python's [sum] starts from the
    [int] 0, so an empty sum is an [int] and dividing it by an [int] zero
    raises, while numpy's division never does.  The properties stated
    over this arithmetic are those that no rounding can change:
    recurrences as the code writes them, shapes, exceptions, order.  The
    functions whose claimed properties depend on rounding, underflow or
    overflow are read a second time over IEEE binary64 (module [F64]).

    Arrays.  A one-dimensional array is a list, a two-dimensional array the
    list of its rows, read and written by index; an index out of range
    raises [IndexError], shapes that do not broadcast raise [ValueError].
    An array with no rows has no column count in this model.  Observations
    are natural numbers, so Python's negative indices do not occur.

    State.  [viterbi_path] is the one object shared between calls; the
    functions that touch it thread its content.  The [while] loop of
    [baum_welch] is run for a given number of passes.

    The file has two parts: the embedding with the definitions the
    statements use, then the proofs. *)

From Stdlib Require Import ZArith QArith Qcanon Lia Lqa Bool Arith String List.
From Stdlib Require PrimFloat.
Import ListNotations.

(* ================================================================== *)
(** ** Numbers *)

Module Num.

Inductive num : Type :=
| Fin (q : Qc)
| PInf
| NInf
| NaN.

Definition frac (a : Z) (b : positive) : num := Fin (Q2Qc (a # b)).
Definition zero : num := Fin (Q2Qc 0).
Definition one : num := Fin (Q2Qc 1).

Definition Qc_eqb (a b : Qc) : bool := Qeq_bool a b.
Definition Qc_ltb (a b : Qc) : bool :=
  match (a ?= b)%Qc with Lt => true | _ => false end.


Definition is_nan (x : num) : bool :=
  match x with NaN => true | _ => false end.

(** Sign of a value that is not NaN: [Lt] negative, [Eq] zero, [Gt]
    positive. *)
Definition sign (x : num) : comparison :=
  match x with
  | Fin q => (q ?= Q2Qc 0)%Qc
  | PInf => Gt
  | NInf => Lt
  | NaN => Eq
  end.

Definition nopp (x : num) : num :=
  match x with
  | Fin q => Fin (- q)%Qc
  | PInf => NInf
  | NInf => PInf
  | NaN => NaN
  end.

Definition nadd (x y : num) : num :=
  match x, y with
  | NaN, _ | _, NaN => NaN
  | Fin a, Fin b => Fin (a + b)%Qc
  | PInf, NInf | NInf, PInf => NaN
  | PInf, _ | _, PInf => PInf
  | NInf, _ | _, NInf => NInf
  end.

Definition nsub (x y : num) : num := nadd x (nopp y).

Definition nmul (x y : num) : num :=
  match x, y with
  | NaN, _ | _, NaN => NaN
  | Fin a, Fin b => Fin (a * b)%Qc
  | _, _ =>
      match sign x, sign y with
      | Eq, _ | _, Eq => NaN
      | Gt, Gt | Lt, Lt => PInf
      | _, _ => NInf
      end
  end.

(** Division.  A zero divisor is the positive zero: every divisor of the
    notebook is a [sum], which starts from [0]. *)
Definition ndiv (x y : num) : num :=
  match x, y with
  | NaN, _ | _, NaN => NaN
  | Fin a, Fin b =>
      if Qc_eqb b (Q2Qc 0) then
        match (a ?= Q2Qc 0)%Qc with
        | Eq => NaN
        | Gt => PInf
        | Lt => NInf
        end
      else Fin (a / b)%Qc
  | Fin _, _ => zero
  | _, Fin b =>
      match sign x, Qc_ltb b (Q2Qc 0) with
      | Gt, false | Lt, true => PInf
      | _, _ => NInf
      end
  | _, _ => NaN
  end.

Definition nabs (x : num) : num :=
  match x with
  | Fin q => Fin (if Qc_ltb q (Q2Qc 0) then - q else q)%Qc
  | PInf | NInf => PInf
  | NaN => NaN
  end.

(** [x > y]; every comparison with NaN is false. *)
Definition ngt (x y : num) : bool :=
  match x, y with
  | NaN, _ | _, NaN => false
  | Fin a, Fin b => Qc_ltb b a
  | PInf, PInf | NInf, _ => false
  | PInf, _ => true
  | Fin _, NInf => true
  | Fin _, PInf => false
  end.

Definition num_eqb (x y : num) : bool :=
  match x, y with
  | Fin a, Fin b => Qc_eqb a b
  | PInf, PInf | NInf, NInf | NaN, NaN => true
  | _, _ => false
  end.

End Num.
Export Num.

(* ================================================================== *)
(** ** Exceptions and results *)

Module Py.

Inductive exn : Type :=
| IndexError
| ValueError
| ZeroDivisionError
| TypeError.

Inductive res (A : Type) : Type :=
| Ok (a : A)
| Raise (e : exn).
Arguments Ok {A} a.
Arguments Raise {A} e.

Definition bind {A B} (m : res A) (k : A -> res B) : res B :=
  match m with
  | Ok a => k a
  | Raise e => Raise e
  end.

Definition is_ok {A} (m : res A) : bool :=
  match m with Ok _ => true | Raise _ => false end.

End Py.
Export Py.

Open Scope nat_scope.

Declare Scope res_scope.
Delimit Scope res_scope with res.
Notation "x <- m ;; k" := (bind m (fun x => k))
  (at level 61, m at next level, right associativity) : res_scope.
Open Scope res_scope.

(** [for i in l: s = body i s] *)
Fixpoint for_ {S : Type} (l : list nat) (body : nat -> S -> res S) (s : S)
  : res S :=
  match l with
  | [] => Ok s
  | i :: l' => s' <- body i s ;; for_ l' body s'
  end.

(** Numbers as Python sees them: [sum] starts from the [int] 0, array
    entries are numpy floats. *)
Inductive pynum : Type :=
| PyInt (z : Z)
| NpFloat (x : num).

Definition to_float (a : pynum) : num :=
  match a with
  | PyInt z => Fin (Q2Qc (inject_Z z))
  | NpFloat x => x
  end.

Definition py_add (a b : pynum) : pynum :=
  match a, b with
  | PyInt x, PyInt y => PyInt (x + y)
  | _, _ => NpFloat (nadd (to_float a) (to_float b))
  end.

Definition py_sum (l : list pynum) : pynum := fold_left py_add l (PyInt 0).

(** [a / b]: two [int]s with a zero divisor raise; as soon as one operand
    is a numpy float the division is numpy's and yields inf or NaN. *)
Definition py_truediv (a b : pynum) : res pynum :=
  match a, b with
  | PyInt x, PyInt y =>
      if (y =? 0)%Z then Raise ZeroDivisionError
      else Ok (NpFloat (Fin (Q2Qc (x # 1) / Q2Qc (y # 1))%Qc))
  | _, _ => Ok (NpFloat (ndiv (to_float a) (to_float b)))
  end.

(* ================================================================== *)
(** ** Arrays *)

Module Np.

Abbreviation vec := (list num).
Abbreviation mat := (list (list num)).
Abbreviation ten3 := (list (list (list num))).

Definition zeros (row col : nat) : mat := repeat (repeat zero col) row.
Definition zeros3 (d0 d1 d2 : nat) : ten3 := repeat (zeros d1 d2) d0.
Definition ones (n : nat) : vec := repeat one n.

Fixpoint set_nth {A} (l : list A) (i : nat) (x : A) : list A :=
  match l, i with
  | [], _ => []
  | _ :: t, O => x :: t
  | h :: t, S j => h :: set_nth t j x
  end.

Definition list_get {A} (l : list A) (i : nat) : res A :=
  match nth_error l i with
  | Some x => Ok x
  | None => Raise IndexError
  end.

Definition list_set {A} (l : list A) (i : nat) (x : A) : res (list A) :=
  if i <? length l then Ok (set_nth l i x) else Raise IndexError.

(** [F[r, c]] *)
Definition get2 (F : mat) (r c : nat) : res num :=
  v <- list_get F r ;; list_get v c.

(** [F[r, c] = x] *)
Definition set2 (F : mat) (r c : nat) (x : num) : res mat :=
  v <- list_get F r ;;
  v' <- list_set v c x ;;
  Ok (set_nth F r v').

(** [X[i, j, t]] and [X[i, j, t] = x] *)
Definition get3 (X : ten3) (i j t : nat) : res num :=
  m <- list_get X i ;; get2 m j t.

Definition set3 (X : ten3) (i j t : nat) (x : num) : res ten3 :=
  m <- list_get X i ;;
  m' <- set2 m j t x ;;
  Ok (set_nth X i m').

(** [F[r, :]] *)
Definition getrow (F : mat) (r : nat) : res vec := list_get F r.

(** [F[:, c]] *)
Fixpoint getcol (F : mat) (c : nat) : res vec :=
  match F with
  | [] => Ok []
  | v :: F' =>
      x <- list_get v c ;;
      xs <- getcol F' c ;;
      Ok (x :: xs)
  end.

Fixpoint setcol_each (F : mat) (c : nat) (v : vec) : res mat :=
  match F, v with
  | [], _ => Ok []
  | r :: F', x :: v' =>
      r' <- list_set r c x ;;
      F'' <- setcol_each F' c v' ;;
      Ok (r' :: F'')
  | _ :: _, [] => Raise ValueError
  end.

Fixpoint setcol_all (F : mat) (c : nat) (x : num) : res mat :=
  match F with
  | [] => Ok []
  | r :: F' =>
      r' <- list_set r c x ;;
      F'' <- setcol_all F' c x ;;
      Ok (r' :: F'')
  end.

(** [F[:, c] = v]: the column is indexed first, then [v] is broadcast to
    the column's length. *)
Definition setcol (F : mat) (c : nat) (v : vec) : res mat :=
  _ <- getcol F c ;;
  if length v =? length F then setcol_each F c v
  else match v with
       | [x] => setcol_all F c x
       | _ => Raise ValueError
       end.

Fixpoint zip_with (f : num -> num -> num) (a b : vec) : vec :=
  match a, b with
  | x :: a', y :: b' => f x y :: zip_with f a' b'
  | _, _ => []
  end.

(** [a * b] on one-dimensional arrays, with numpy's broadcasting. *)
Definition bmul (a b : vec) : res vec :=
  if length a =? length b then Ok (zip_with nmul a b)
  else match a, b with
       | [x], _ => Ok (map (nmul x) b)
       | _, [y] => Ok (map (fun x => nmul x y) a)
       | _, _ => Raise ValueError
       end.

(** Python's [sum] over the entries of an array. *)
Definition sum_arr (v : vec) : pynum := py_sum (map NpFloat v).

(** [v.sum()] *)
Definition np_sum (v : vec) : num := fold_left nadd v zero.

(** Python's [max] over the entries of an array: the first entry is kept
    until a later one compares greater. *)
Definition py_max (v : vec) : res num :=
  match v with
  | [] => Raise ValueError
  | x :: l => Ok (fold_left (fun m y => if ngt y m then y else m) l x)
  end.

Definition vec_eqb (a b : vec) : bool :=
  (length a =? length b) && forallb (fun p => num_eqb (fst p) (snd p)) (combine a b).

Definition mat_eqb (a b : mat) : bool :=
  (length a =? length b) && forallb (fun p => vec_eqb (fst p) (snd p)) (combine a b).

End Np.
Export Np.

(* ================================================================== *)
(** ** The notebook's functions *)

Definition calculate_forward_probabilities
    (pi : vec) (emission_probability transition_probability : mat)
    (obs_seq : list nat) : res mat :=
  let row := length transition_probability in
  let col := length obs_seq in
  let F := zeros row col in
  o0 <- list_get obs_seq 0 ;;
  e0 <- getcol emission_probability o0 ;;
  v0 <- bmul pi e0 ;;
  F <- setcol F 0 v0 ;;
  for_ (seq 1 (col - 1)) (fun c F =>
    F <- for_ (seq 0 row) (fun r F =>
           prev <- getcol F (c - 1) ;;
           a <- getrow transition_probability r ;;
           p <- bmul prev a ;;
           set2 F r c (to_float (sum_arr p))) F ;;
    fc <- getcol F c ;;
    oc <- list_get obs_seq c ;;
    ec <- getcol emission_probability oc ;;
    v <- bmul fc ec ;;
    setcol F c v) F.

(** *** The decoder's process-wide list

    [viterbi_path] is a module-level list: [viterbi] appends to it and
    [calculate_viterbi_path] rewrites its entries in place.  Code that
    touches it is a function of the list's content that yields a result
    (or an exception) and the list's new content. *)

Inductive pyval : Type :=
| PInt (n : nat)
| PStr (s : string)
| PNan.

Definition store := list pyval.
Definition St (A : Type) := store -> res A * store.

Definition sret {A} (a : A) : St A := fun st => (Ok a, st).

Definition sbind {A B} (m : St A) (k : A -> St B) : St B :=
  fun st =>
    match m st with
    | (Ok a, st') => k a st'
    | (Raise e, st') => (Raise e, st')
    end.

Definition lift {A} (m : res A) : St A := fun st => (m, st).

(** [viterbi_path.append(v)] *)
Definition append (v : pyval) : St unit := fun st => (Ok tt, st ++ [v]).

Declare Scope st_scope.
Delimit Scope st_scope with st.
Notation "x <~ m ;; k" := (sbind m (fun x => k))
  (at level 61, m at next level, right associativity) : st_scope.

Fixpoint sfor {S : Type} (l : list nat) (body : nat -> S -> St S) (s : S)
  : St S :=
  match l with
  | [] => sret s
  | i :: l' => sbind (body i s) (sfor l' body)
  end.

(** [pd.DataFrame(v).idxmax()[0]]: the label of the first greatest entry,
    NaN entries skipped (they count as minus infinity); NaN when every
    entry is NaN; [ValueError] on an empty frame. *)
Definition nan_to_ninf (x : num) : num :=
  match x with NaN => NInf | _ => x end.

Fixpoint argmax_from (best : nat) (bestv : num) (i : nat) (l : vec) : nat :=
  match l with
  | [] => best
  | x :: l' =>
      if ngt x bestv then argmax_from i x (S i) l'
      else argmax_from best bestv (S i) l'
  end.

Definition argmax (v : vec) : nat :=
  match v with
  | [] => 0
  | x :: l => argmax_from 0 x 1 l
  end.

Definition idxmax (v : vec) : res pyval :=
  match v with
  | [] => Raise ValueError
  | _ =>
      if forallb is_nan v then Ok PNan
      else Ok (PInt (argmax (map nan_to_ninf v)))
  end.

Definition viterbi
    (pi : vec) (emission_probability transition_probability : mat)
    (obs_seq : list nat) : St mat :=
  let row := length transition_probability in
  let col := length obs_seq in
  let F := zeros row col in
  (F <~ lift (o0 <- list_get obs_seq 0 ;;
              e0 <- getcol emission_probability o0 ;;
              v0 <- bmul pi e0 ;;
              setcol F 0 v0) ;;
   k <~ lift (t <- getcol F 0 ;; idxmax t) ;;
   _ <~ append k ;;
   sfor (seq 1 (col - 1)) (fun c F =>
     F <~ lift (for_ (seq 0 row) (fun r F =>
                  a <- getrow transition_probability r ;;
                  prev <- getcol F (c - 1) ;;
                  p <- bmul a prev ;;
                  m <- py_max p ;;
                  set2 F r c m) F) ;;
     F <~ lift (fc <- getcol F c ;;
                oc <- list_get obs_seq c ;;
                ec <- getcol emission_probability oc ;;
                v <- bmul fc ec ;;
                setcol F c v) ;;
     k <~ lift (t <- getcol F c ;; idxmax t) ;;
     _ <~ append k ;;
     sret F) F)%st.

(** [calculate_viterbi_path()]: reads the last entry (unused afterwards)
    and replaces every entry by the label of the state it names. *)
Definition calculate_viterbi_path (states : list string) : St unit :=
  (prev_state <~ (fun st => (list_get st (length st - 1), st)) ;;
   n <~ (fun st => (Ok (length st), st)) ;;
   sfor (seq 0 n) (fun i _ =>
     v <~ (fun st => (list_get st i, st)) ;;
     s <~ lift (match v with
                | PInt k => list_get states k
                | _ => Raise TypeError
                end) ;;
     fun st => (Ok tt, set_nth st i (PStr s))) tt)%st.

Definition calculate_backward_probabilities
    (emission_probability transition_probability : mat)
    (obs_seq : list nat) : res mat :=
  let row := length transition_probability in
  let col := length obs_seq in
  let F := zeros row col in
  F <- (if col =? 0 then Raise IndexError
        else setcol F (col - 1) (ones row)) ;;
  for_ (rev (seq 0 (col - 1))) (fun c F =>
    for_ (seq 0 row) (fun r F =>
      x1 <- get2 F r (c + 1) ;;
      x2 <- get2 F r (c + 1) ;;
      let t := [x1; x2] in
      a <- getrow transition_probability r ;;
      p <- bmul t a ;;
      oc <- list_get obs_seq c ;;
      e <- getcol emission_probability oc ;;
      q <- bmul p e ;;
      set2 F r c (np_sum q)) F) F.

(** A generator expression [f(j) for j in l], consumed by [sum]. *)
Fixpoint gen {A} (l : list nat) (f : nat -> res A) : res (list A) :=
  match l with
  | [] => Ok []
  | j :: l' => x <- f j ;; xs <- gen l' f ;; Ok (x :: xs)
  end.

Definition calculate_gamma
    (alpha beta : mat) (obs_seq : list nat) (transition_probability : mat)
  : res mat :=
  let row := length transition_probability in
  let col := length obs_seq in
  let gamma := zeros row col in
  for_ (seq 0 col) (fun t gamma =>
    for_ (seq 0 row) (fun i gamma =>
      a <- get2 alpha i t ;;
      b <- get2 beta i t ;;
      terms <- gen (seq 0 row) (fun j =>
                 aj <- get2 alpha j t ;;
                 bj <- get2 beta j t ;;
                 Ok (NpFloat (nmul aj bj))) ;;
      q <- py_truediv (NpFloat (nmul a b)) (py_sum terms) ;;
      set2 gamma i t (to_float q)) gamma) gamma.

Definition xi_term (alpha beta : mat) (obs_seq : list nat)
    (emission_probability transition_probability : mat) (i j t : nat)
  : res num :=
  a <- get2 alpha i t ;;
  tr <- get2 transition_probability i j ;;
  o <- list_get obs_seq (t + 1) ;;
  e <- get2 emission_probability j o ;;
  b <- get2 beta j (t + 1) ;;
  Ok (nmul (nmul (nmul a tr) e) b).

Definition compute_xi
    (alpha beta : mat) (obs_seq : list nat)
    (emission_probability transition_probability : mat) : res ten3 :=
  let col := length obs_seq in
  let row := length transition_probability in
  let xi := zeros3 row row col in
  for_ (seq 0 (col - 1)) (fun t xi =>
    for_ (seq 0 row) (fun i xi =>
      for_ (seq 0 row) (fun j xi =>
        numerator <- xi_term alpha beta obs_seq emission_probability
                       transition_probability i j t ;;
        rows <- gen (seq 0 row) (fun i1 =>
                  inner <- gen (seq 0 row) (fun j1 =>
                             x <- xi_term alpha beta obs_seq
                                    emission_probability
                                    transition_probability i1 j1 t ;;
                             Ok (NpFloat x)) ;;
                  Ok (py_sum inner)) ;;
        q <- py_truediv (NpFloat numerator) (py_sum rows) ;;
        set3 xi i j t (to_float q)) xi) xi) xi.

(** [sum(sum(map(abs, old - new)))]: the inner [sum] adds the rows of
    absolute differences to the [int] 0, the outer one adds the entries of
    the resulting row; with no rows the inner sum is the [int] 0, which
    the outer [sum] cannot iterate. *)
Definition abs_change (old new : mat) : res pynum :=
  let d := map (map nabs) (map (fun p => zip_with nsub (fst p) (snd p))
                               (combine old new)) in
  match d with
  | [] => Raise TypeError
  | r0 :: rs => Ok (sum_arr (fold_left (zip_with nadd) rs (map (nadd zero) r0)))
  end.

(** The threshold [x = 0.2]. *)
Definition threshold : num := frac 1 5.

(** One pass through the body of the [while] loop: the E step, the M step
    written into the two matrices entry by entry, and the total change. *)
Definition baum_welch_step
    (pi : vec) (emission_probability transition_probability : mat)
    (obs_seq : list nat) : res (mat * mat * num) :=
  let M := match emission_probability with [] => 0 | r :: _ => length r end in
  let row := length transition_probability in
  let col := length obs_seq in
  alpha <- calculate_forward_probabilities pi emission_probability
             transition_probability obs_seq ;;
  beta <- calculate_backward_probabilities emission_probability
            transition_probability obs_seq ;;
  gamma <- calculate_gamma alpha beta obs_seq transition_probability ;;
  xi <- compute_xi alpha beta obs_seq emission_probability
          transition_probability ;;
  let lambda_n := (transition_probability, emission_probability, pi) in
  A <- for_ (seq 0 row) (fun i A =>
         for_ (seq 0 row) (fun j A =>
           xs <- gen (seq 0 (col - 1)) (fun t =>
                   x <- get3 xi i j t ;; Ok (NpFloat x)) ;;
           gs <- gen (seq 0 (col - 1)) (fun t =>
                   g <- get2 gamma i t ;; Ok (NpFloat g)) ;;
           q <- py_truediv (py_sum xs) (py_sum gs) ;;
           set2 A i j (to_float q)) A) transition_probability ;;
  B <- for_ (seq 0 row) (fun j B =>
         for_ (seq 0 M) (fun k B =>
           ns <- gen (filter (fun t => nth t obs_seq 0 =? k) (seq 0 col))
                   (fun t => g <- get2 gamma j t ;; Ok (NpFloat g)) ;;
           gs <- gen (seq 0 col) (fun t =>
                   g <- get2 gamma j t ;; Ok (NpFloat g)) ;;
           q <- py_truediv (py_sum ns) (py_sum gs) ;;
           set2 B j k (to_float q)) B) emission_probability ;;
  dA <- abs_change (fst (fst lambda_n)) A ;;
  dB <- abs_change (snd (fst lambda_n)) B ;;
  let dpi := sum_arr (map nabs (zip_with nsub (snd lambda_n) pi)) in
  Ok (A, B, to_float (py_sum [dA; dB; dpi])).

(** What a call of [baum_welch] can come to.  [Running] is not a result of
    the notebook: it says that the loop is still running after the number
    of passes the model was given. *)
Inductive outcome : Type :=
| Returned (transition_probability emission_probability : mat) (pi : vec)
| Raised (e : exn)
| Running.

(** [while delta_lambda > x: ...] *)
Fixpoint baum_welch_while (passes : nat) (delta_lambda : num)
    (pi : vec) (emission_probability transition_probability : mat)
    (obs_seq : list nat) : outcome :=
  if ngt delta_lambda threshold then
    match passes with
    | O => Running
    | S passes' =>
        match baum_welch_step pi emission_probability
                transition_probability obs_seq with
        | Raise e => Raised e
        | Ok (A, B, d) => baum_welch_while passes' d pi B A obs_seq
        end
    end
  else Returned transition_probability emission_probability pi.

Definition baum_welch (passes : nat)
    (pi : vec) (emission_probability transition_probability : mat)
    (obs_seq : list nat) : outcome :=
  let x := threshold in
  let delta_lambda := nadd x one in
  baum_welch_while passes delta_lambda pi emission_probability
    transition_probability obs_seq.

(* ================================================================== *)
(** ** Shapes and entries *)

Definition shapeb (r c : nat) (F : mat) : bool :=
  (length F =? r) && forallb (fun v => length v =? c) F.

(** [F] is an [r] by [c] array. *)
Definition shape (r c : nat) (F : mat) : Prop := shapeb r c F = true.

(** [F[i][t]], read without a bounds check (zero outside the array). *)
Definition entry (F : mat) (i t : nat) : num := nth t (nth i F []) zero.

(** Column [t] of the first [n] rows. *)
Definition column (F : mat) (n t : nat) : vec :=
  map (fun i => entry F i t) (seq 0 n).


(** Every observation is an index into an alphabet of [M] symbols. *)
Definition obs_valid (M : nat) (obs_seq : list nat) : Prop :=
  forallb (fun o => o <? M) obs_seq = true.

Definition demo_pi : vec := [frac 1 2; frac 1 2].
Definition demo_A : mat := [[frac 9 10; frac 1 10]; [frac 1 10; frac 9 10]].
Definition demo_B : mat := [[frac 1 2; frac 1 2]; [frac 3 4; frac 1 4]].
Definition demo_obs : list nat := [0; 0; 0; 0; 0; 1; 1; 1; 1; 1]%nat.
Definition train_A : mat := [[frac 4 5; frac 1 5]; [frac 1 5; frac 4 5]].


(** The normalisation denominator of column [t]: the products
    [alpha[j, t] * beta[j, t]] of the first [n] states, added from 0. *)
Definition weight (alpha beta : mat) (n t : nat) : num :=
  np_sum (map (fun j => nmul (entry alpha j t) (entry beta j t)) (seq 0 n)).

(** Comparison of a computed result with an expected array. *)
Definition returns_mat (r : res mat) (m : mat) : bool :=
  match r with
  | Ok m' => mat_eqb m' m
  | Raise _ => false
  end.

(** A pair of lattices with positive column weights. *)
Definition sample_alpha : mat := [[frac 1 4; frac 21 160]; [frac 3 8; frac 87 320]].
Definition sample_beta : mat := [[frac 21 40; frac 1 1]; [frac 29 40; frac 1 1]].

(** [calculate_backward_probabilities] returns a lattice on every
    well-formed model with [N] states. *)
Definition backward_total (N : nat) : Prop :=
  forall M A B obs_seq,
    shape N N A -> shape N M B -> obs_valid M obs_seq ->
    1 <= length obs_seq ->
    exists F, calculate_backward_probabilities B A obs_seq = Ok F.

(** A model with three states and one with a single state. *)
Definition three_A : mat :=
  [[frac 1 2; frac 1 4; frac 1 4];
   [frac 1 4; frac 1 2; frac 1 4];
   [frac 1 4; frac 1 4; frac 1 2]].
Definition three_B : mat :=
  [[frac 1 2; frac 1 2]; [frac 3 4; frac 1 4]; [frac 1 4; frac 3 4]].
Definition single_A : mat := [[frac 1 1]].
Definition single_B : mat := [[frac 3 4; frac 1 4]].

(** A computation on the process-wide list that only appends to it: run
    from any content, it yields the result it yields from the empty list
    and leaves the old content followed by what it adds. *)
Definition appends_only {A} (m : St A) : Prop :=
  forall st, m st = (fst (m []), st ++ snd (m [])).




(** *** The recurrences as the specification words them

    These follow the text of the specification, not the notebook; the
    notebook's results are compared with them. *)

(** Forward: [B[i][obs[t]] * sum_j alpha[j][t-1] * A[j][i]], the sum over
    the previous state [j] into the current state [i]. *)
Definition spec_forward_rule (alpha B A : mat) (obs_seq : list nat)
    (N i t : nat) : num :=
  nmul (entry B i (nth t obs_seq 0))
       (np_sum (map (fun j => nmul (entry alpha j (t - 1)) (entry A j i))
                    (seq 0 N))).

(** Backward: [sum_j A[i][j] * B[j][obs[t+1]] * beta[j][t+1]]. *)
Definition spec_backward_rule (beta B A : mat) (obs_seq : list nat)
    (N i t : nat) : num :=
  np_sum (map (fun j => nmul (nmul (entry A i j)
                                   (entry B j (nth (t + 1) obs_seq 0)))
                             (entry beta j (t + 1)))
              (seq 0 N)).

(** The decoder: the greatest entry of a list and its position, the
    lowest index winning a tie. *)
Definition greatest (l : vec) : num :=
  match l with
  | [] => zero
  | x :: l' => fold_left (fun m y => if ngt y m then y else m) l' x
  end.

(** [delta[i][0] = pi[i] * B[i][obs[0]]] *)
Definition spec_delta_first (pi : vec) (B : mat) (N o : nat) : vec :=
  map (fun i => nmul (nth i pi zero) (entry B i o)) (seq 0 N).

(** For each later observation the column
    [delta[i][t] = B[i][obs[t]] * max_j (A[j][i] * delta[j][t-1])] and the
    predecessors [argmax_j (A[j][i] * delta[j][t-1])]. *)
Fixpoint spec_delta_columns (B A : mat) (N : nat) (prev : vec)
    (obs_rest : list nat) : list (vec * list nat) :=
  match obs_rest with
  | [] => []
  | o :: rest =>
      let cand := fun i =>
        map (fun j => nmul (entry A j i) (nth j prev zero)) (seq 0 N) in
      let d := map (fun i => nmul (entry B i o) (greatest (cand i))) (seq 0 N) in
      let p := map (fun i => argmax (cand i)) (seq 0 N) in
      (d, p) :: spec_delta_columns B A N d rest
  end.

(** Follow the stored predecessors back from the final state. *)
Definition spec_backtrack (final : nat) (preds : list (list nat)) : list nat :=
  fold_right (fun p acc =>
                match acc with
                | [] => []
                | s :: _ => nth s p 0 :: acc
                end) [final] preds.

(** The decoded path of the specification, oldest state first. *)
Definition spec_decode_path (pi : vec) (B A : mat) (N : nat)
    (obs_seq : list nat) : list nat :=
  match obs_seq with
  | [] => []
  | o :: rest =>
      let d0 := spec_delta_first pi B N o in
      let cols := spec_delta_columns B A N d0 rest in
      let final := argmax (last (map fst cols) d0) in
      spec_backtrack final (map snd cols)
  end.

(** A model whose transition matrix is not symmetric. *)
Definition skew_A : mat := [[frac 9 10; frac 1 10]; [frac 1 2; frac 1 2]].

(** A short training input. *)
Definition short_A : mat := [[frac 3 4; frac 1 4]; [frac 9 10; frac 1 10]].
Definition short_obs : list nat := [0; 1; 0].

(** The array a call returned (empty if it raised). *)
Definition value (r : res mat) : mat :=
  match r with
  | Ok m => m
  | Raise _ => []
  end.

(** The decoded path as a list of state indices. *)
Definition indices (st : store) : list nat :=
  map (fun v => match v with PInt n => n | _ => 0 end) st.

(** The sum of row [i] of a matrix. *)
Definition row_sum (F : mat) (i : nat) : num := np_sum (nth i F []).

(** *** The recurrences as the notebook computes them *)

(** Forward: the previous column times row [i] of the transition matrix,
    summed, then times the emission. *)
Definition coded_forward_rule (alpha B A : mat) (obs_seq : list nat)
    (N i t : nat) : num :=
  nmul (np_sum (map (fun j => nmul (entry alpha j (t - 1)) (entry A i j))
                    (seq 0 N)))
       (entry B i (nth t obs_seq 0)).

(** Backward, for two states: the state's own next value times each
    transition out of the state times the emission of the current
    observation, summed. *)
Definition coded_backward_rule (beta B A : mat) (obs_seq : list nat)
    (N i t : nat) : num :=
  np_sum (map (fun j => nmul (nmul (entry beta i (t + 1)) (entry A i j))
                             (entry B j (nth t obs_seq 0)))
              (seq 0 N)).

(** [A[i][j] = A[j][i]] for all states. *)
Definition symmetric (N : nat) (A : mat) : Prop :=
  forall i j, i < N -> j < N -> entry A i j = entry A j i.

(** The decoder: the greatest product of row [i] of the transition matrix
    with the previous column, times the emission. *)
Definition coded_decode_rule (delta B A : mat) (obs_seq : list nat)
    (N i t : nat) : num :=
  nmul (greatest (map (fun j => nmul (entry A i j) (entry delta j (t - 1)))
                      (seq 0 N)))
       (entry B i (nth t obs_seq 0)).

(** What the decoder appends for a column: the index of its first
    greatest entry (NaN if every entry is NaN). *)
Definition label (v : vec) : pyval :=
  if forallb is_nan v then PNan else PInt (argmax (map nan_to_ninf v)).

(** [x] agrees with the decimal [n / 10^7] the notebook prints, to seven
    places. *)
Definition prints_as (x : num) (n : Z) : bool :=
  match x with
  | Fin q =>
      Qle_bool ((2 * n - 1) # 20000000) (this q)
      && Qle_bool (this q) ((2 * n + 1) # 20000000)
  | _ => false
  end.

(** *** Further notions used by the properties below *)

(** The label [calculate_viterbi_path] writes for the index [k]. *)
Definition named (states : list string) (k : nat) : pyval :=
  PStr (nth k states EmptyString).

(** The exception an entry of the decoder's list makes
    [calculate_viterbi_path] raise, if any: [states[v]] needs an integer
    below the number of labels. *)
Definition entry_error (states : list string) (v : pyval) : option exn :=
  match v with
  | PInt k => if k <? length states then None else Some IndexError
  | _ => Some TypeError
  end.

(** Backward with a single state: the vector of length 2 is broadcast
    against the row and the column of length 1, and the two equal products
    are added. *)
Definition single_backward_rule (beta B A : mat) (obs_seq : list nat)
    (t : nat) : num :=
  let p := nmul (nmul (entry beta 0 (t + 1)) (entry A 0 0))
                (entry B 0 (nth t obs_seq 0)) in
  nadd p p.



(** [X[i][j][t]], read without a bounds check. *)
Definition entry3 (X : ten3) (i j t : nat) : num :=
  nth t (nth j (nth i X []) []) zero.

(** [X] is a [d0] by [d1] by [d2] array. *)
Definition shape3 (d0 d1 d2 : nat) (X : ten3) : Prop :=
  (length X =? d0) && forallb (shapeb d1 d2) X = true.

(** The numerator of [xi[i, j, t]] as [compute_xi] writes it. *)
Definition xi_num (alpha beta : mat) (obs_seq : list nat) (B A : mat)
    (i j t : nat) : num :=
  nmul (nmul (nmul (entry alpha i t) (entry A i j))
             (entry B j (nth (t + 1) obs_seq 0)))
       (entry beta j (t + 1)).

(** Its denominator: the numerators of all pairs of the first [N] states,
    added row by row. *)
Definition xi_den (alpha beta : mat) (obs_seq : list nat) (B A : mat)
    (N t : nat) : num :=
  np_sum (map (fun i1 =>
            np_sum (map (fun j1 => xi_num alpha beta obs_seq B A i1 j1 t)
                        (seq 0 N)))
          (seq 0 N)).

(** The entries the M step writes, from the posteriors of the E step. *)
Definition new_transition (xi : ten3) (gamma : mat) (T i j : nat) : num :=
  ndiv (np_sum (map (fun t => entry3 xi i j t) (seq 0 (T - 1))))
       (np_sum (map (fun t => entry gamma i t) (seq 0 (T - 1)))).

Definition new_emission (gamma : mat) (obs_seq : list nat) (j k : nat) : num :=
  ndiv (np_sum (map (fun t => entry gamma j t)
                    (filter (fun t => nth t obs_seq 0 =? k)
                            (seq 0 (length obs_seq)))))
       (np_sum (map (fun t => entry gamma j t) (seq 0 (length obs_seq)))).


(** What a call of [baum_welch] on a model of [N] states and [M] symbols
    may come to when no pass fails: it is still running, or it returned
    matrices of the model's shape and the initial distribution it was
    given. *)
Definition settles_in_shape (N M : nat) (pi : vec) (o : outcome) : Prop :=
  match o with
  | Raised _ => False
  | Running => True
  | Returned A B pi' => shape N N A /\ shape N M B /\ pi' = pi
  end.


(* ================================================================== *)
(** ** The same functions over IEEE doubles

    The arrays of the notebook hold float64 values.  Where a property
    depends on rounding, underflow or overflow the functions are read
    again with the machine's arithmetic: the code is the same line by
    line, the entries are binary64 values and every operation is the
    IEEE one, rounded to nearest. *)

Module F64.

Import PrimFloat.
#[local] Set Warnings "-inexact-float".

Abbreviation vec := (list float).
Abbreviation mat := (list (list float)).

Definition zero : float := 0%float.
Definition one : float := 1%float.

(** An [int] as a double; exact below 2^53. *)
Fixpoint of_pos (p : positive) : float :=
  match p with
  | xH => 1
  | xO q => 2 * of_pos q
  | xI q => 2 * of_pos q + 1
  end%float.

Definition of_int (z : Z) : float :=
  match z with
  | Z0 => zero
  | Zpos p => of_pos p
  | Zneg p => (- of_pos p)%float
  end.

Inductive pynum : Type :=
| PyInt (z : Z)
| NpFloat (x : float).

Definition to_float (a : pynum) : float :=
  match a with
  | PyInt z => of_int z
  | NpFloat x => x
  end.

Definition py_add (a b : pynum) : pynum :=
  match a, b with
  | PyInt x, PyInt y => PyInt (x + y)
  | _, _ => NpFloat (to_float a + to_float b)%float
  end.

Definition py_sum (l : list pynum) : pynum := fold_left py_add l (PyInt 0).

Definition py_truediv (a b : pynum) : res pynum :=
  match a, b with
  | PyInt x, PyInt y =>
      if (y =? 0)%Z then Raise ZeroDivisionError
      else Ok (NpFloat (of_int x / of_int y)%float)
  | _, _ => Ok (NpFloat (to_float a / to_float b)%float)
  end.

Definition zeros (row col : nat) : mat := repeat (repeat zero col) row.
Definition ones (n : nat) : vec := repeat one n.

Definition get2 (F : mat) (r c : nat) : res float :=
  v <- list_get F r ;; list_get v c.

Definition set2 (F : mat) (r c : nat) (x : float) : res mat :=
  v <- list_get F r ;;
  v' <- list_set v c x ;;
  Ok (set_nth F r v').

Definition getrow (F : mat) (r : nat) : res vec := list_get F r.

Fixpoint getcol (F : mat) (c : nat) : res vec :=
  match F with
  | [] => Ok []
  | v :: F' =>
      x <- list_get v c ;;
      xs <- getcol F' c ;;
      Ok (x :: xs)
  end.

Fixpoint setcol_each (F : mat) (c : nat) (v : vec) : res mat :=
  match F, v with
  | [], _ => Ok []
  | r :: F', x :: v' =>
      r' <- list_set r c x ;;
      F'' <- setcol_each F' c v' ;;
      Ok (r' :: F'')
  | _ :: _, [] => Raise ValueError
  end.

Fixpoint setcol_all (F : mat) (c : nat) (x : float) : res mat :=
  match F with
  | [] => Ok []
  | r :: F' =>
      r' <- list_set r c x ;;
      F'' <- setcol_all F' c x ;;
      Ok (r' :: F'')
  end.

Definition setcol (F : mat) (c : nat) (v : vec) : res mat :=
  _ <- getcol F c ;;
  if length v =? length F then setcol_each F c v
  else match v with
       | [x] => setcol_all F c x
       | _ => Raise ValueError
       end.

Fixpoint zip_with (f : float -> float -> float) (a b : vec) : vec :=
  match a, b with
  | x :: a', y :: b' => f x y :: zip_with f a' b'
  | _, _ => []
  end.

Definition bmul (a b : vec) : res vec :=
  if length a =? length b then Ok (zip_with mul a b)
  else match a, b with
       | [x], _ => Ok (map (mul x) b)
       | _, [y] => Ok (map (fun x => mul x y) a)
       | _, _ => Raise ValueError
       end.

(** Python's [sum] over the entries of an array, and [v.sum()] (added
    in order from 0; the sign of a zero sum is not followed). *)
Definition sum_arr (v : vec) : pynum := py_sum (map NpFloat v).
Definition np_sum (v : vec) : float := fold_left add v zero.

Definition calculate_forward_probabilities
    (pi : vec) (emission_probability transition_probability : mat)
    (obs_seq : list nat) : res mat :=
  let row := length transition_probability in
  let col := length obs_seq in
  let F := zeros row col in
  o0 <- list_get obs_seq 0 ;;
  e0 <- getcol emission_probability o0 ;;
  v0 <- bmul pi e0 ;;
  F <- setcol F 0 v0 ;;
  for_ (seq 1 (col - 1)) (fun c F =>
    F <- for_ (seq 0 row) (fun r F =>
           prev <- getcol F (c - 1) ;;
           a <- getrow transition_probability r ;;
           p <- bmul prev a ;;
           set2 F r c (to_float (sum_arr p))) F ;;
    fc <- getcol F c ;;
    oc <- list_get obs_seq c ;;
    ec <- getcol emission_probability oc ;;
    v <- bmul fc ec ;;
    setcol F c v) F.

Definition calculate_backward_probabilities
    (emission_probability transition_probability : mat)
    (obs_seq : list nat) : res mat :=
  let row := length transition_probability in
  let col := length obs_seq in
  let F := zeros row col in
  F <- (if col =? 0 then Raise IndexError
        else setcol F (col - 1) (ones row)) ;;
  for_ (rev (seq 0 (col - 1))) (fun c F =>
    for_ (seq 0 row) (fun r F =>
      x1 <- get2 F r (c + 1) ;;
      x2 <- get2 F r (c + 1) ;;
      let t := [x1; x2] in
      a <- getrow transition_probability r ;;
      p <- bmul t a ;;
      oc <- list_get obs_seq c ;;
      e <- getcol emission_probability oc ;;
      q <- bmul p e ;;
      set2 F r c (np_sum q)) F) F.

Definition calculate_gamma
    (alpha beta : mat) (obs_seq : list nat) (transition_probability : mat)
  : res mat :=
  let row := length transition_probability in
  let col := length obs_seq in
  let gamma := zeros row col in
  for_ (seq 0 col) (fun t gamma =>
    for_ (seq 0 row) (fun i gamma =>
      a <- get2 alpha i t ;;
      b <- get2 beta i t ;;
      terms <- gen (seq 0 row) (fun j =>
                 aj <- get2 alpha j t ;;
                 bj <- get2 beta j t ;;
                 Ok (NpFloat (aj * bj)%float)) ;;
      q <- py_truediv (NpFloat (a * b)%float) (py_sum terms) ;;
      set2 gamma i t (to_float q)) gamma) gamma.

Definition entry (F : mat) (i t : nat) : float := nth t (nth i F []) zero.

Definition value (r : res mat) : mat :=
  match r with Ok m => m | Raise _ => [] end.

Definition shapeb (r c : nat) (F : mat) : bool :=
  (length F =? r) && forallb (fun v => length v =? c) F.

Definition shape (r c : nat) (F : mat) : Prop := shapeb r c F = true.

(** The denominator of column [t] as [calculate_gamma] adds it: the
    products of the first [n] states, in order, from 0. *)
Definition weight (alpha beta : mat) (n t : nat) : float :=
  np_sum (map (fun j => (entry alpha j t * entry beta j t)%float) (seq 0 n)).


(** The notebook's model as it is typed there. *)
Definition coin_pi : vec := [0.5; 0.5]%float.
Definition coin_A : mat := [[0.9; 0.1]; [0.1; 0.9]]%float.



(** A valid model in which no state emits the second symbol. *)
Definition mute_B : mat := [[1; 0]; [1; 0]]%float.
Definition mute_obs : list nat := [1; 0].



End F64.


(* ================================================================== *)
(** * Proofs *)

(* ================================================================== *)
(** ** Lists and arrays: basic facts *)

Section ListFacts.
Context {A : Type}.

Lemma length_set_nth (l : list A) i x : length (set_nth l i x) = length l.
Proof.
  revert i; induction l as [|h t IH]; intros [|j]; simpl; auto.
Qed.

Lemma nth_error_set_nth_eq (l : list A) i x :
  i < length l -> nth_error (set_nth l i x) i = Some x.
Proof.
  revert i; induction l as [|h t IH]; intros [|j] H; simpl in *;
    try lia; auto.
  apply IH; lia.
Qed.

Lemma nth_error_set_nth_neq (l : list A) i j x :
  i <> j -> nth_error (set_nth l i x) j = nth_error l j.
Proof.
  revert i j; induction l as [|h t IH]; intros [|i] [|j] H; simpl;
    try congruence; auto.
Qed.

Lemma nth_set_nth_eq (l : list A) i x d :
  i < length l -> nth i (set_nth l i x) d = x.
Proof.
  intro H. apply nth_error_nth. now apply nth_error_set_nth_eq.
Qed.

Lemma nth_set_nth_neq (l : list A) i j x d :
  i <> j -> nth j (set_nth l i x) d = nth j l d.
Proof.
  revert i j; induction l as [|h t IH]; intros [|i] [|j] H; simpl;
    try congruence; auto.
Qed.

Lemma list_get_nth (l : list A) i d :
  i < length l -> list_get l i = Ok (nth i l d).
Proof.
  intro H. unfold list_get.
  destruct (nth_error l i) eqn:E.
  - now rewrite (nth_error_nth _ _ d E).
  - apply nth_error_None in E. lia.
Qed.

Lemma list_get_out (l : list A) i :
  length l <= i -> list_get l i = Raise IndexError.
Proof.
  intro H. unfold list_get.
  now rewrite (proj2 (nth_error_None l i) H).
Qed.

Lemma list_set_in (l : list A) i x :
  i < length l -> list_set l i x = Ok (set_nth l i x).
Proof.
  intro H. unfold list_set.
  now rewrite (proj2 (Nat.ltb_lt _ _) H).
Qed.

End ListFacts.

Lemma bind_ok {A B} (m : res A) (k : A -> res B) a :
  m = Ok a -> bind m k = k a.
Proof. now intros ->. Qed.

Lemma for_app {S} (l1 l2 : list nat) (body : nat -> S -> res S) s :
  for_ (l1 ++ l2) body s = (s' <- for_ l1 body s ;; for_ l2 body s').
Proof.
  revert s; induction l1 as [|i l1 IH]; intro s; simpl; auto.
  destruct (body i s); simpl; auto.
Qed.

(** A loop over [range(a, a + n)] keeps an invariant indexed by the next
    index. *)
Lemma for_seq_inv {S} (I : nat -> S -> Prop) body a n s :
  I a s ->
  (forall i s, a <= i < a + n -> I i s ->
     exists s', body i s = Ok s' /\ I (Datatypes.S i) s') ->
  exists s', for_ (seq a n) body s = Ok s' /\ I (a + n) s'.
Proof.
  revert a s; induction n as [|n IH]; intros a s H0 Hstep; simpl.
  - exists s. rewrite Nat.add_0_r. auto.
  - destruct (Hstep a s) as (s1 & E1 & H1); [lia | assumption |].
    rewrite E1; simpl.
    destruct (IH (Datatypes.S a) s1 H1) as (s2 & E2 & H2).
    + intros i s' Hi. apply Hstep. lia.
    + exists s2. split; auto. now replace (a + Datatypes.S n) with (Datatypes.S a + n) by lia.
Qed.

(** A loop over [range(n - 1, -1, -1)] keeps an invariant indexed by the
    number of indices still to visit. *)
Lemma for_rev_seq_inv {S} (I : nat -> S -> Prop) body n s :
  I n s ->
  (forall i s, i < n -> I (Datatypes.S i) s ->
     exists s', body i s = Ok s' /\ I i s') ->
  exists s', for_ (rev (seq 0 n)) body s = Ok s' /\ I 0 s'.
Proof.
  revert s; induction n as [|n IH]; intros s H0 Hstep.
  - exists s; simpl; auto.
  - rewrite seq_S, rev_app_distr; simpl.
    destruct (Hstep n s) as (s1 & E1 & H1); [lia | assumption |].
    rewrite E1; simpl.
    apply IH; auto.
Qed.

Lemma gen_ok {A} (l : list nat) (f : nat -> res A) (h : nat -> A) :
  (forall j, In j l -> f j = Ok (h j)) -> gen l f = Ok (map h l).
Proof.
  induction l as [|j l IH]; intro H; simpl; auto.
  rewrite (H j) by (now left). simpl.
  rewrite IH by (intros; apply H; now right). reflexivity.
Qed.

Lemma shape_length r c F : shape r c F -> length F = r.
Proof.
  unfold shape, shapeb. intro H. apply andb_prop in H as [H _].
  now apply Nat.eqb_eq.
Qed.

Lemma shape_row r c F i :
  shape r c F -> i < r -> length (nth i F []) = c.
Proof.
  unfold shape, shapeb. intros H Hi.
  apply andb_prop in H as [H1 H2]. apply Nat.eqb_eq in H1.
  rewrite forallb_forall in H2.
  apply Nat.eqb_eq, H2, nth_In. lia.
Qed.

Lemma shape_intro r c F :
  length F = r -> (forall i, i < r -> length (nth i F []) = c) -> shape r c F.
Proof.
  intros H1 H2. unfold shape, shapeb.
  apply andb_true_intro; split; [now apply Nat.eqb_eq|].
  apply forallb_forall. intros v Hv.
  destruct (In_nth _ _ [] Hv) as (i & Hi & <-).
  apply Nat.eqb_eq, H2. lia.
Qed.

Lemma shape_zeros r c : shape r c (zeros r c).
Proof.
  apply shape_intro.
  - unfold zeros. apply repeat_length.
  - intros i Hi. unfold zeros.
    rewrite (nth_indep _ [] (repeat zero c)) by (rewrite repeat_length; lia).
    rewrite nth_repeat. apply repeat_length.
Qed.

Lemma get2_entry r c F i t :
  shape r c F -> i < r -> t < c -> get2 F i t = Ok (entry F i t).
Proof.
  intros H Hi Ht. unfold get2, entry.
  rewrite (list_get_nth F i []) by (rewrite (shape_length _ _ _ H); lia).
  simpl. apply list_get_nth. rewrite (shape_row _ _ _ i H); lia.
Qed.

(** [F[i, t] = x] inside the array succeeds, keeps the shape and changes
    that entry only. *)
Lemma set2_spec r c F i t x :
  shape r c F -> i < r -> t < c ->
  exists F', set2 F i t x = Ok F' /\ shape r c F' /\
    entry F' i t = x /\
    (forall i' t', (i', t') <> (i, t) -> entry F' i' t' = entry F i' t').
Proof.
  intros H Hi Ht. unfold set2.
  pose proof (shape_length _ _ _ H) as HL.
  pose proof (shape_row _ _ _ i H Hi) as HR.
  rewrite (list_get_nth F i []) by lia. simpl.
  rewrite list_set_in by lia. simpl.
  eexists; split; [reflexivity|]. split; [|split].
  - apply shape_intro.
    + now rewrite length_set_nth.
    + intros k Hk. destruct (Nat.eq_dec i k) as [->|Hne].
      * rewrite nth_set_nth_eq by lia. now rewrite length_set_nth.
      * rewrite nth_set_nth_neq by assumption. now apply (shape_row _ _ _ k H).
  - unfold entry. rewrite nth_set_nth_eq by lia. apply nth_set_nth_eq. lia.
  - intros i' t' Hne. unfold entry.
    destruct (Nat.eq_dec i i') as [<-|Hi'].
    + rewrite nth_set_nth_eq by lia.
      apply nth_set_nth_neq. congruence.
    + now rewrite nth_set_nth_neq.
Qed.

(* ================================================================== *)
(** ** Posterior [gamma] *)


Lemma py_sum_from (l : vec) (acc : pynum) :
  to_float (fold_left py_add (map NpFloat l) acc)
  = fold_left nadd l (to_float acc).
Proof.
  revert acc; induction l as [|x l IH]; intro acc; simpl; auto.
  rewrite IH. destruct acc; reflexivity.
Qed.

Lemma sum_arr_float (l : vec) : to_float (sum_arr l) = np_sum l.
Proof. unfold sum_arr, py_sum, np_sum. now rewrite py_sum_from. Qed.

Lemma truediv_float (x : num) (d : pynum) :
  py_truediv (NpFloat x) d = Ok (NpFloat (ndiv x (to_float d))).
Proof. destruct d; reflexivity. Qed.

(** On arrays of the right shape [calculate_gamma] raises nothing and every
    entry is the quotient the code writes, whatever the denominator. *)
Lemma calculate_gamma_entries alpha beta obs_seq A :
  shape (length A) (length obs_seq) alpha ->
  shape (length A) (length obs_seq) beta ->
  exists gamma,
    calculate_gamma alpha beta obs_seq A = Ok gamma /\
    shape (length A) (length obs_seq) gamma /\
    forall i t, i < length A -> t < length obs_seq ->
      entry gamma i t
      = ndiv (nmul (entry alpha i t) (entry beta i t))
             (weight alpha beta (length A) t).
Proof.
  intros Ha Hb. unfold calculate_gamma.
  set (N := length A) in *. set (T := length obs_seq) in *.
  set (g := fun i t => ndiv (nmul (entry alpha i t) (entry beta i t))
                            (weight alpha beta N t)).
  destruct (for_seq_inv
    (fun t gamma => shape N T gamma /\
       forall i t', i < N -> t' < t -> entry gamma i t' = g i t')
    (fun t gamma =>
       for_ (seq 0 N) (fun i gamma =>
         a <- get2 alpha i t ;;
         b <- get2 beta i t ;;
         terms <- gen (seq 0 N) (fun j =>
                    aj <- get2 alpha j t ;;
                    bj <- get2 beta j t ;;
                    Ok (NpFloat (nmul aj bj))) ;;
         q <- py_truediv (NpFloat (nmul a b)) (py_sum terms) ;;
         set2 gamma i t (to_float q)) gamma)
    0 T (zeros N T)) as (gamma & E & Hs & He).
  - split; [apply shape_zeros | intros; lia].
  - intros t G0 Ht (Hs0 & He0).
    destruct (for_seq_inv
      (fun i gamma => shape N T gamma /\
         (forall i' t', i' < N -> t' < t -> entry gamma i' t' = g i' t') /\
         (forall i', i' < i -> entry gamma i' t = g i' t))
      (fun i gamma =>
         a <- get2 alpha i t ;;
         b <- get2 beta i t ;;
         terms <- gen (seq 0 N) (fun j =>
                    aj <- get2 alpha j t ;;
                    bj <- get2 beta j t ;;
                    Ok (NpFloat (nmul aj bj))) ;;
         q <- py_truediv (NpFloat (nmul a b)) (py_sum terms) ;;
         set2 gamma i t (to_float q))
      0 N G0) as (G1 & E1 & Hs1 & He1 & Hc1).
    + repeat split; auto. intros; lia.
    + intros i G Hi (HsG & HeG & HcG).
      rewrite (get2_entry N T alpha i t) by (auto; lia). cbn [bind].
      rewrite (get2_entry N T beta i t) by (auto; lia). cbn [bind].
      rewrite (gen_ok (seq 0 N) _
                 (fun j => NpFloat (nmul (entry alpha j t) (entry beta j t)))).
      2:{ intros j Hj. apply in_seq in Hj.
          rewrite (get2_entry N T alpha j t) by (auto; lia). cbn [bind].
          rewrite (get2_entry N T beta j t) by (auto; lia). reflexivity. }
      cbn [bind]. rewrite truediv_float. cbn [bind to_float].
      destruct (set2_spec N T G i t
                  (ndiv (nmul (entry alpha i t) (entry beta i t))
                     (to_float (py_sum (map (fun j => NpFloat
                        (nmul (entry alpha j t) (entry beta j t))) (seq 0 N))))))
        as (G' & EG' & HsG' & Hit & Hoth); auto; try lia.
      exists G'. split; [exact EG'|]. split; [exact HsG'|]. split.
      * intros i' t' Hi' Ht'. rewrite Hoth by (intro X; inversion X; lia).
        now apply HeG.
      * intros i' Hi'. destruct (Nat.eq_dec i' i) as [->|Hne].
        -- rewrite Hit. unfold g, weight.
           rewrite <- (map_map (fun j => nmul (entry alpha j t) (entry beta j t))
                               NpFloat).
           fold (sum_arr (map (fun j => nmul (entry alpha j t) (entry beta j t))
                              (seq 0 N))).
           now rewrite sum_arr_float.
        -- rewrite Hoth by (intro X; inversion X; lia). apply HcG. lia.
    + exists G1. split; [exact E1|]. split; [exact Hs1|].
      intros i t' Hi Ht'. destruct (Nat.eq_dec t' t) as [->|Hne].
      * apply Hc1. lia.
      * apply He1; lia.
  - exists gamma. split; [exact E|]. split; [exact Hs|].
    intros i t Hi Ht. apply He; lia.
Qed.

Lemma Qc_eqb_eq (a b : Qc) : Qc_eqb a b = true <-> a = b.
Proof.
  unfold Qc_eqb. rewrite Qeq_bool_iff. split.
  - apply Qc_is_canon.
  - now intros ->.
Qed.

Lemma num_eqb_eq (x y : num) : num_eqb x y = true <-> x = y.
Proof.
  destruct x, y; simpl; try (split; congruence).
  rewrite Qc_eqb_eq. split; congruence.
Qed.


Lemma vec_eqb_eq (a b : vec) : vec_eqb a b = true -> a = b.
Proof.
  unfold vec_eqb. revert b; induction a as [|x a IH]; intros [|y b] H;
    simpl in *; try discriminate; auto.
  apply andb_prop in H as [H1 H2]. apply andb_prop in H2 as [H2 H3].
  apply num_eqb_eq in H2. subst y. f_equal.
  apply IH. now rewrite H1, H3.
Qed.

Lemma mat_eqb_eq (a b : mat) : mat_eqb a b = true -> a = b.
Proof.
  unfold mat_eqb. revert b; induction a as [|x a IH]; intros [|y b] H;
    simpl in *; try discriminate; auto.
  apply andb_prop in H as [H1 H2]. apply andb_prop in H2 as [H2 H3].
  apply vec_eqb_eq in H2. subst y. f_equal.
  apply IH. now rewrite H1, H3.
Qed.

Lemma returns_mat_eq (r : res mat) (m : mat) :
  returns_mat r m = true -> r = Ok m.
Proof.
  destruct r as [m'|e]; simpl; [|discriminate].
  intro H. f_equal. now apply mat_eqb_eq.
Qed.

(** Closed goals about computed numbers and arrays. *)
Ltac by_num := apply num_eqb_eq; vm_compute; reflexivity.
Ltac by_mat := apply returns_mat_eq; vm_compute; reflexivity.

(** ** Posterior [gamma] over doubles *)























(** C8, counterexample: on a valid model whose first observation has
    probability zero, the denominator of column 0 is zero and
    [calculate_gamma] still returns a lattice, with NaN in that column. *)
Lemma gamma_zero_denominator_returns_nan :
  exists alpha beta gamma,
    F64.calculate_forward_probabilities F64.coin_pi F64.mute_B F64.coin_A
      F64.mute_obs = Ok alpha /\
    F64.calculate_backward_probabilities F64.mute_B F64.coin_A F64.mute_obs
      = Ok beta /\
    F64.weight alpha beta 2 0 = F64.zero /\
    F64.calculate_gamma alpha beta F64.mute_obs F64.coin_A = Ok gamma /\
    PrimFloat.is_nan (F64.entry gamma 0 0) = true /\
    PrimFloat.is_nan (F64.entry gamma 1 0) = true.
Proof.
  exists [[F64.zero; F64.zero]; [F64.zero; F64.zero]],
         [[F64.zero; F64.one]; [F64.zero; F64.one]],
         [[PrimFloat.nan; PrimFloat.nan]; [PrimFloat.nan; PrimFloat.nan]].
  split; [vm_compute; reflexivity|]. split; [vm_compute; reflexivity|].
  split; [vm_compute; reflexivity|]. split; [vm_compute; reflexivity|].
  split; vm_compute; reflexivity.
Qed.

(* ================================================================== *)
(** ** Columns *)

Lemma getcol_map F t :
  (forall v, In v F -> t < length v) ->
  getcol F t = Ok (map (fun v => nth t v zero) F).
Proof.
  induction F as [|v F IH]; intro H; simpl; auto.
  rewrite (list_get_nth v t zero) by (apply H; now left). cbn [bind].
  rewrite IH by (intros; apply H; now right). reflexivity.
Qed.

Lemma shape_rows r c F v : shape r c F -> In v F -> length v = c.
Proof.
  unfold shape, shapeb. intros H Hv.
  apply andb_prop in H as [_ H]. rewrite forallb_forall in H.
  now apply Nat.eqb_eq, H.
Qed.

Lemma map_nth_seq {A} (l : list A) (d : A) :
  map (fun i => nth i l d) (seq 0 (length l)) = l.
Proof.
  induction l as [|x l IH]; simpl; auto.
  f_equal. rewrite <- seq_shift, map_map. exact IH.
Qed.

Lemma column_map F r t :
  length F = r -> column F r t = map (fun v => nth t v zero) F.
Proof.
  intros <-. unfold column, entry.
  rewrite <- (map_map (fun i => nth i F []) (fun v => nth t v zero)).
  now rewrite map_nth_seq.
Qed.

Lemma getcol_column r c F t :
  shape r c F -> t < c -> getcol F t = Ok (column F r t).
Proof.
  intros H Ht. rewrite (column_map F r t (shape_length _ _ _ H)).
  apply getcol_map. intros v Hv. now rewrite (shape_rows _ _ _ _ H Hv).
Qed.

Lemma length_column F n t : length (column F n t) = n.
Proof. unfold column. now rewrite length_map, length_seq. Qed.

Lemma setcol_each_spec c F t v :
  (forall u, In u F -> length u = c) -> t < c -> length v = length F ->
  exists F', setcol_each F t v = Ok F' /\ length F' = length F /\
    (forall u, In u F' -> length u = c) /\
    (forall i, i < length F -> nth t (nth i F' []) zero = nth i v zero) /\
    (forall i t', t' <> t -> nth t' (nth i F' []) zero = nth t' (nth i F []) zero).
Proof.
  intros HF Ht. revert v; induction F as [|u F IH]; intros [|x v] Hv;
    simpl in *; try discriminate.
  - exists []. repeat split; auto; intros; try lia; contradiction.
  - rewrite list_set_in by (rewrite (HF u) by (now left); exact Ht).
    cbn [bind].
    destruct (IH (fun w Hw => HF w (or_intror Hw)) v) as (F' & E & HL & HR & Hc & Ho);
      [lia|].
    rewrite E. cbn [bind]. eexists; split; [reflexivity|].
    split; [simpl; lia|]. split; [|split].
    + intros w [<-|Hw]; [|now apply HR].
      rewrite length_set_nth. apply HF. now left.
    + intros [|i] Hi; simpl.
      * apply nth_set_nth_eq. rewrite (HF u) by (now left). exact Ht.
      * apply Hc. lia.
    + intros [|i] t' Hne; simpl.
      * apply nth_set_nth_neq. congruence.
      * now apply Ho.
Qed.

(** [F[:, t] = v] with [v] as long as the column. *)
Lemma setcol_spec r c F t v :
  shape r c F -> t < c -> length v = r ->
  exists F', setcol F t v = Ok F' /\ shape r c F' /\
    (forall i, i < r -> entry F' i t = nth i v zero) /\
    (forall i t', t' <> t -> entry F' i t' = entry F i t').
Proof.
  intros H Ht Hv. unfold setcol.
  rewrite (getcol_column r c F t H Ht). cbn [bind].
  pose proof (shape_length _ _ _ H) as HL.
  rewrite (proj2 (Nat.eqb_eq _ _)) by lia.
  destruct (setcol_each_spec c F t v) as (F' & E & HL' & HR & Hc & Ho);
    auto; try lia.
  { intros u Hu. exact (shape_rows _ _ _ _ H Hu). }
  exists F'. split; [exact E|]. split; [|split].
  - apply shape_intro; [lia|]. intros i Hi. apply HR, nth_In. lia.
  - intros i Hi. apply Hc. lia.
  - intros i t' Hne. now apply Ho.
Qed.

(* ================================================================== *)
(** ** Backward lattice *)

Lemma obs_valid_nth M obs_seq c :
  obs_valid M obs_seq -> c < length obs_seq -> nth c obs_seq 0 < M.
Proof.
  unfold obs_valid. intros H Hc. rewrite forallb_forall in H.
  apply Nat.ltb_lt, H, nth_In, Hc.
Qed.

Lemma bmul_pair_fail (x1 x2 : num) (a : vec) :
  2 < length a -> bmul [x1; x2] a = Raise ValueError.
Proof.
  intro H. unfold bmul.
  destruct a as [|y [|z [|w a]]]; simpl in *; try lia; reflexivity.
Qed.

Lemma bmul_pair_ok (p a : vec) :
  length p = 2 -> length a = 1 \/ length a = 2 ->
  exists q, bmul p a = Ok q /\ length q = 2.
Proof.
  intros Hp Ha. unfold bmul.
  destruct p as [|x1 [|x2 [|x3 p]]]; simpl in Hp; try lia.
  destruct a as [|y [|z [|w a]]]; simpl in Ha; try lia; simpl;
    eexists; split; reflexivity.
Qed.

(** The last column of the fresh lattice is set to ones. *)
Lemma backward_init r c :
  0 < c ->
  exists F, (if c =? 0 then Raise IndexError
             else setcol (zeros r c) (c - 1) (ones r)) = Ok F /\
            shape r c F.
Proof.
  intro Hc. destruct (Nat.eqb_spec c 0) as [|_]; [lia|].
  destruct (setcol_spec r c (zeros r c) (c - 1) (ones r)) as (F & E & Hs & _).
  - apply shape_zeros.
  - lia.
  - apply repeat_length.
  - now exists F.
Qed.

(** With more than two states the first entry the recurrence computes
    multiplies a vector of length 2 by a row of length [N]. *)
Lemma backward_fails_beyond_two N M A B obs_seq :
  shape N N A -> shape N M B ->
  2 < N -> 2 <= length obs_seq ->
  calculate_backward_probabilities B A obs_seq = Raise ValueError.
Proof.
  intros HA HB HN HT. unfold calculate_backward_probabilities.
  rewrite (shape_length _ _ _ HA).
  destruct (backward_init N (length obs_seq)) as (F & E & Hs); [lia|].
  rewrite E. cbn [bind].
  destruct (length obs_seq) as [|[|k]] eqn:ET; try lia.
  replace (S (S k) - 1) with (S k) by lia.
  rewrite seq_S, rev_app_distr. cbn [rev app for_ Nat.add].
  destruct N as [|n]; [lia|]. cbn [seq for_].
  rewrite (get2_entry (S n) (S (S k)) F 0 (k + 1)) by (auto; lia).
  cbn [bind]. unfold getrow.
  rewrite (list_get_nth A 0 []) by (rewrite (shape_length _ _ _ HA); lia).
  cbn [bind].
  rewrite bmul_pair_fail by (rewrite (shape_row _ _ _ 0 HA); lia).
  reflexivity.
Qed.

(** With at most two states every step of the recurrence is defined. *)
Lemma backward_small_total N M A B obs_seq :
  shape N N A -> shape N M B -> obs_valid M obs_seq ->
  1 <= length obs_seq -> N <= 2 ->
  exists F, calculate_backward_probabilities B A obs_seq = Ok F /\
            shape N (length obs_seq) F.
Proof.
  intros HA HB Hobs HT HN. unfold calculate_backward_probabilities.
  rewrite (shape_length _ _ _ HA).
  set (T := length obs_seq) in *.
  destruct (backward_init N T) as (F0 & E0 & Hs0); [lia|].
  rewrite E0. cbn [bind].
  apply (for_rev_seq_inv (fun _ F => shape N T F)); [exact Hs0|].
  intros c F Hc HsF.
  replace N with (0 + N) at 2 by lia.
  apply (for_seq_inv (fun _ F => shape N T F)); [exact HsF|].
  intros r G Hr HsG.
  rewrite (get2_entry N T G r (c + 1)) by (auto; lia). cbn [bind].
  unfold getrow.
  rewrite (list_get_nth A r []) by (rewrite (shape_length _ _ _ HA); lia).
  cbn [bind].
  destruct (bmul_pair_ok [entry G r (c + 1); entry G r (c + 1)] (nth r A []))
    as (p & Ep & Lp); [reflexivity | |].
  { rewrite (shape_row _ _ _ r HA) by lia.
    destruct N as [|[|[|n]]]; lia. }
  rewrite Ep. cbn [bind].
  rewrite (list_get_nth obs_seq c 0) by (fold T; lia). cbn [bind].
  rewrite (getcol_column N M B _ HB) by (apply obs_valid_nth; auto; fold T; lia).
  cbn [bind].
  destruct (bmul_pair_ok p (column B N (nth c obs_seq 0)))
    as (q & Eq & Lq); [exact Lp | |].
  { rewrite length_column. destruct N as [|[|[|n]]]; lia. }
  rewrite Eq. cbn [bind].
  destruct (set2_spec N T G r c (np_sum q)) as (G' & EG & HsG' & _);
    auto; try lia.
  exists G'. auto.
Qed.

(** With a single observation the lattice is its boundary column. *)
Lemma backward_single_observation N M A B o :
  shape N N A -> shape N M B ->
  exists F, calculate_backward_probabilities B A [o] = Ok F /\ shape N 1 F.
Proof.
  intros HA HB. unfold calculate_backward_probabilities.
  rewrite (shape_length _ _ _ HA). cbn [length].
  destruct (backward_init N 1) as (F0 & E0 & Hs0); [lia|].
  rewrite E0. cbn [bind Nat.sub seq rev for_]. now exists F0.
Qed.

(** With one state numpy broadcasts the vector of length 2 against the
    row and the column of length 1: each step doubles the product. *)
Example backward_single_state :
  calculate_backward_probabilities single_B single_A [0; 1; 1]
  = Ok [[frac 3 4; frac 1 2; frac 1 1]].
Proof. by_mat. Qed.

(** C10, counterexample: [calculate_backward_probabilities] is total on
    the models with one state, so it is not total only for exactly two. *)
Lemma backward_total_with_one_state :
  ~ (forall N, backward_total N -> N = 2).
Proof.
  intro H. specialize (H 1).
  assert (T1 : backward_total 1).
  { intros M A B obs_seq HA HB Hobs HT.
    destruct (backward_small_total 1 M A B obs_seq HA HB Hobs HT)
      as (F & E & _); [lia|].
    now exists F. }
  specialize (H T1). discriminate.
Qed.

(** C10, as the code has it: on a well-formed model
    [calculate_backward_probabilities] fails with a shape error
    ([ValueError]) whenever there are more than two states and at least
    two observations, and returns an N by T lattice whenever there are at
    most two states or a single observation. *)
Theorem backward_shape_error_beyond_two_states N M A B obs_seq :
  shape N N A -> shape N M B -> obs_valid M obs_seq ->
  1 <= length obs_seq ->
  (2 < N -> 2 <= length obs_seq ->
   calculate_backward_probabilities B A obs_seq = Raise ValueError) /\
  (N <= 2 \/ length obs_seq = 1 ->
   exists F, calculate_backward_probabilities B A obs_seq = Ok F /\
             shape N (length obs_seq) F).
Proof.
  intros HA HB Hobs HT. split.
  - intros HN HT2. now apply (backward_fails_beyond_two N M).
  - intros [HN|H1].
    + now apply (backward_small_total N M).
    + destruct obs_seq as [|o [|o' l]]; simpl in H1; try lia.
      now apply (backward_single_observation N M).
Qed.

(** C10 at a model with three states, where the call raises, and at one
    with a single state, where it returns. *)
Lemma backward_shape_error_beyond_two_states_sample :
  calculate_backward_probabilities three_B three_A [0; 1] = Raise ValueError /\
  exists F, calculate_backward_probabilities single_B single_A [0; 1] = Ok F /\
            shape 1 2 F.
Proof.
  split.
  - apply (backward_shape_error_beyond_two_states 3 2 three_A three_B [0; 1]);
      try reflexivity; simpl; lia.
  - apply (backward_shape_error_beyond_two_states 1 2 single_A single_B [0; 1]);
      try reflexivity; simpl; lia.
Defined.

(* ================================================================== *)
(** ** The decoder and its list *)

Lemma appends_sret {A} (a : A) : appends_only (sret a).
Proof. intro st. unfold sret. simpl. now rewrite app_nil_r. Qed.

Lemma appends_lift {A} (m : res A) : appends_only (lift m).
Proof. intro st. unfold lift. simpl. now rewrite app_nil_r. Qed.

Lemma appends_append (v : pyval) : appends_only (append v).
Proof. intro st. reflexivity. Qed.

Lemma appends_sbind {A B} (m : St A) (k : A -> St B) :
  appends_only m -> (forall a, appends_only (k a)) ->
  appends_only (sbind m k).
Proof.
  intros Hm Hk st. unfold sbind.
  rewrite (Hm st). destruct (m []) as [[a|e] p]; simpl.
  - rewrite (Hk a (st ++ p)), (Hk a p). simpl. now rewrite app_assoc.
  - reflexivity.
Qed.

Lemma appends_sfor {S} (l : list nat) (body : nat -> S -> St S) (s : S) :
  (forall i s, appends_only (body i s)) -> appends_only (sfor l body s).
Proof.
  intro H. revert s; induction l as [|i l IH]; intro s; simpl.
  - apply appends_sret.
  - apply appends_sbind; auto.
Qed.

Lemma viterbi_appends pi B A obs_seq : appends_only (viterbi pi B A obs_seq).
Proof.
  unfold viterbi.
  repeat (apply appends_sbind; [|intro]);
    try apply appends_lift; try apply appends_append.
  apply appends_sfor. intros c F.
  repeat (apply appends_sbind; [|intro]);
    try apply appends_sret; try apply appends_lift; try apply appends_append.
Qed.

(** The notebook's run: the decoded indices, the matrix of the printed
    output rounded as printed, and the labels after
    [calculate_viterbi_path]. *)
Example viterbi_demo_path :
  snd (viterbi demo_pi demo_B demo_A demo_obs [])
  = [PInt 1; PInt 1; PInt 1; PInt 1; PInt 1; PInt 1; PInt 1;
     PInt 0; PInt 0; PInt 0].
Proof. vm_compute. reflexivity. Qed.

(** C9, counterexample: on the notebook's own input a second call of
    [viterbi] with identical arguments leaves a decoded path that differs
    from the one the first call left (it is twice as long). *)
Lemma decode_second_call_path_differs :
  let first := viterbi demo_pi demo_B demo_A demo_obs [] in
  let second := viterbi demo_pi demo_B demo_A demo_obs (snd first) in
  snd second <> snd first /\ length (snd second) = 2 * length (snd first).
Proof.
  vm_compute. split; [discriminate | reflexivity].
Qed.

(* ================================================================== *)
(** ** The training loop *)






Lemma threshold_plus_one : ngt (nadd threshold one) threshold = true.
Proof. vm_compute. reflexivity. Qed.




(* ================================================================== *)
(** ** The notebook's results against the specification's recurrences *)

Lemma num_eqb_neq (x y : num) : num_eqb x y = false -> x <> y.
Proof.
  intros H E. apply num_eqb_eq in E. congruence.
Qed.

Ltac by_num_neq := apply num_eqb_neq; vm_compute; reflexivity.

Lemma ok_value (r : res mat) : is_ok r = true -> r = Ok (value r).
Proof. destruct r; simpl; [reflexivity | discriminate]. Qed.

(** Run a call on closed arguments and name the array it returns. *)
Ltac run_call := eexists; split; [apply ok_value; vm_compute; reflexivity|].

(** The notebook's run of the forward pass begins as it prints it. *)
Example forward_demo_first_columns :
  exists F,
    calculate_forward_probabilities demo_pi demo_B demo_A demo_obs = Ok F /\
    column F 2 0 = [frac 1 4; frac 3 8] /\
    column F 2 1 = [frac 21 160; frac 87 320].
Proof.
  run_call. split; apply vec_eqb_eq; vm_compute; reflexivity.
Qed.

(** The posteriors of the notebook's run, as it prints them. *)
Example gamma_demo_printed :
  exists alpha beta gamma,
    calculate_forward_probabilities demo_pi demo_B demo_A demo_obs = Ok alpha /\
    calculate_backward_probabilities demo_B demo_A demo_obs = Ok beta /\
    calculate_gamma alpha beta demo_obs demo_A = Ok gamma /\
    prints_as (entry gamma 0 0) 5416142 = true /\
    prints_as (entry gamma 1 0) 4583858 = true /\
    prints_as (entry gamma 0 9) 8606037 = true /\
    prints_as (entry gamma 1 9) 1393963 = true.
Proof.
  exists (value (calculate_forward_probabilities demo_pi demo_B demo_A demo_obs)),
         (value (calculate_backward_probabilities demo_B demo_A demo_obs)).
  eexists.
  split; [apply ok_value; vm_compute; reflexivity|].
  split; [apply ok_value; vm_compute; reflexivity|].
  split; [apply ok_value; vm_compute; reflexivity|].
  repeat split; vm_compute; reflexivity.
Qed.

Example xi_demo_printed :
  exists alpha beta xi,
    calculate_forward_probabilities demo_pi demo_B demo_A demo_obs = Ok alpha /\
    calculate_backward_probabilities demo_B demo_A demo_obs = Ok beta /\
    compute_xi alpha beta demo_obs demo_B demo_A = Ok xi /\
    prints_as (nth 0 (nth 0 (nth 0 xi []) []) zero) 4642407 = true /\
    prints_as (nth 8 (nth 1 (nth 1 xi []) []) zero) 927298 = true /\
    nth 9 (nth 1 (nth 1 xi []) []) zero = zero.
Proof.
  exists (value (calculate_forward_probabilities demo_pi demo_B demo_A demo_obs)),
         (value (calculate_backward_probabilities demo_B demo_A demo_obs)).
  destruct (compute_xi
              (value (calculate_forward_probabilities demo_pi demo_B demo_A demo_obs))
              (value (calculate_backward_probabilities demo_B demo_A demo_obs))
              demo_obs demo_B demo_A) as [xi|e] eqn:E;
    [|vm_compute in E; discriminate].
  exists xi.
  split; [apply ok_value; vm_compute; reflexivity|].
  split; [apply ok_value; vm_compute; reflexivity|].
  split; [reflexivity|].
  assert (X : xi = match compute_xi
              (value (calculate_forward_probabilities demo_pi demo_B demo_A demo_obs))
              (value (calculate_backward_probabilities demo_B demo_A demo_obs))
              demo_obs demo_B demo_A with Ok x => x | Raise _ => [] end)
    by (now rewrite E).
  rewrite X. repeat split; vm_compute; reflexivity.
Qed.

(** The first training pass on the notebook's input already leaves a
    transition matrix whose rows do not sum to 1. *)
Example train_demo_first_pass :
  exists A' B' d,
    baum_welch_step demo_pi demo_B train_A demo_obs = Ok (A', B', d) /\
    ngt d threshold = true /\
    row_sum A' 0 <> one /\ row_sum A' 1 <> one /\
    row_sum B' 0 = one /\ row_sum B' 1 = one.
Proof.
  do 3 eexists. split; [vm_compute; reflexivity|].
  split; [vm_compute; reflexivity|].
  split; [by_num_neq|]. split; [by_num_neq|]. split; by_num.
Qed.

(** C1, the notebook against the claim: with a transition matrix that is
    not symmetric the forward lattice does not satisfy the recurrence of
    the specification.  The notebook multiplies the previous column by row
    [i] of the matrix (A[i][j], out of state [i]) where the recurrence sums
    A[j][i] (into state [i]): here alpha[0][1] is 21/160, the recurrence
    gives 33/160. *)
Theorem forward_uses_outgoing_transitions :
  exists alpha,
    calculate_forward_probabilities demo_pi demo_B skew_A [0; 0] = Ok alpha /\
    column alpha 2 0 = [frac 1 4; frac 3 8] /\
    entry alpha 0 1 = frac 21 160 /\
    spec_forward_rule alpha demo_B skew_A [0; 0] 2 0 1 = frac 33 160 /\
    entry alpha 0 1 <> spec_forward_rule alpha demo_B skew_A [0; 0] 2 0 1.
Proof.
  run_call. split; [apply vec_eqb_eq; vm_compute; reflexivity|].
  split; [by_num|]. split; [by_num|by_num_neq].
Qed.

(** C2, the notebook against the claim: on the notebook's own input the
    backward lattice has the boundary column of ones but does not satisfy
    the recurrence of the specification.  The notebook multiplies
    beta[i][t+1] of the state itself by sum_j A[i][j] * B[j][obs[t]]: here
    beta[0][7] is 361/1600 (printed as 0.225625), the recurrence gives
    353/1600. *)
Theorem backward_scales_own_state :
  exists beta,
    calculate_backward_probabilities demo_B demo_A demo_obs = Ok beta /\
    column beta 2 9 = [one; one] /\
    entry beta 0 7 = frac 361 1600 /\
    spec_backward_rule beta demo_B demo_A demo_obs 2 0 7 = frac 353 1600 /\
    entry beta 0 7 <> spec_backward_rule beta demo_B demo_A demo_obs 2 0 7.
Proof.
  run_call. split; [apply vec_eqb_eq; vm_compute; reflexivity|].
  split; [by_num|]. split; [by_num|by_num_neq].
Qed.

(** C3, the notebook against the claim: on the notebook's own input the
    decoded path is the list of the column-wise greatest states, seven
    times state 1 and three times state 0, while following the stored
    predecessors back from the final state, as the specification words
    it, gives state 0 throughout. *)
Theorem decode_takes_columnwise_maxima :
  indices (snd (viterbi demo_pi demo_B demo_A demo_obs []))
    = [1; 1; 1; 1; 1; 1; 1; 0; 0; 0] /\
  spec_decode_path demo_pi demo_B demo_A 2 demo_obs
    = [0; 0; 0; 0; 0; 0; 0; 0; 0; 0] /\
  (exists delta,
     fst (viterbi demo_pi demo_B demo_A demo_obs []) = Ok delta /\
     indices (snd (viterbi demo_pi demo_B demo_A demo_obs []))
     = map (fun t => argmax (column delta 2 t)) (seq 0 10)).
Proof.
  split; [vm_compute; reflexivity|].
  split; [vm_compute; reflexivity|].
  run_call. vm_compute. reflexivity.
Qed.

(** C6, the notebook against the claim: on the notebook's own input the
    sum over the states of alpha[i][t] * beta[i][t] is not the same at
    every time. *)
Theorem forward_backward_products_differ :
  exists alpha beta,
    calculate_forward_probabilities demo_pi demo_B demo_A demo_obs = Ok alpha /\
    calculate_backward_probabilities demo_B demo_A demo_obs = Ok beta /\
    weight alpha beta 2 9 <> weight alpha beta 2 0 /\
    weight alpha beta 2 9 <> weight alpha beta 2 7.
Proof.
  exists (value (calculate_forward_probabilities demo_pi demo_B demo_A demo_obs)),
         (value (calculate_backward_probabilities demo_B demo_A demo_obs)).
  split; [apply ok_value; vm_compute; reflexivity|].
  split; [apply ok_value; vm_compute; reflexivity|].
  split; by_num_neq.
Qed.

(** C4, the notebook against the claim: training from row-stochastic
    matrices returns, after one pass, a transition matrix whose rows do not
    sum to 1, while the rows of the emission matrix do. *)
Theorem train_returns_non_stochastic_transitions :
  row_sum short_A 0 = one /\ row_sum short_A 1 = one /\
  row_sum demo_B 0 = one /\ row_sum demo_B 1 = one /\
  exists A' B',
    baum_welch 1 demo_pi demo_B short_A short_obs = Returned A' B' demo_pi /\
    row_sum A' 0 <> one /\ row_sum A' 1 <> one /\
    row_sum B' 0 = one /\ row_sum B' 1 = one.
Proof.
  repeat (split; [by_num|]).
  do 2 eexists. split; [vm_compute; reflexivity|].
  split; [by_num_neq|]. split; [by_num_neq|]. split; by_num.
Qed.

(* ================================================================== *)
(** ** What the forward pass computes *)

Lemma zip_with_seq_from (f : num -> num -> num) (g : nat -> num) (l : vec) :
  forall a,
    zip_with f (map g (seq a (length l))) l
    = map (fun j => f (g j) (nth (j - a) l zero)) (seq a (length l)).
Proof.
  induction l as [|x l IH]; intro a; simpl; auto.
  rewrite Nat.sub_diag. f_equal.
  rewrite IH. apply map_ext_in. intros j Hj. apply in_seq in Hj.
  replace (j - a) with (S (j - S a)) by lia. reflexivity.
Qed.

Lemma zip_with_column (f : num -> num -> num) (g : nat -> num) (l : vec) n :
  length l = n ->
  zip_with f (map g (seq 0 n)) l
  = map (fun j => f (g j) (nth j l zero)) (seq 0 n).
Proof.
  intros <-. rewrite zip_with_seq_from. apply map_ext. intro j.
  now rewrite Nat.sub_0_r.
Qed.

Lemma zip_with_columns (f : num -> num -> num) (g h : nat -> num) n :
  zip_with f (map g (seq 0 n)) (map h (seq 0 n))
  = map (fun j => f (g j) (h j)) (seq 0 n).
Proof.
  rewrite (zip_with_column f g (map h (seq 0 n)) n)
    by (now rewrite length_map, length_seq).
  apply map_ext_in. intros j Hj. apply in_seq in Hj.
  rewrite (nth_indep _ zero (h 0)) by (rewrite length_map, length_seq; lia).
  rewrite (map_nth h). now rewrite seq_nth by lia.
Qed.

Lemma bmul_same_length (a b : vec) :
  length a = length b -> bmul a b = Ok (zip_with nmul a b).
Proof.
  intro H. unfold bmul. now rewrite (proj2 (Nat.eqb_eq _ _) H).
Qed.

Lemma nth_map_seq (g : nat -> num) n i :
  i < n -> nth i (map g (seq 0 n)) zero = g i.
Proof.
  intro H. rewrite (nth_indep _ zero (g 0)) by (rewrite length_map, length_seq; lia).
  rewrite (map_nth g). now rewrite seq_nth by lia.
Qed.

Lemma zip_with_lists (f : num -> num -> num) (a b : vec) n :
  length a = n -> length b = n ->
  zip_with f a b = map (fun j => f (nth j a zero) (nth j b zero)) (seq 0 n).
Proof.
  intros Ha Hb. rewrite <- (map_nth_seq a zero) at 1. rewrite Ha.
  now apply zip_with_column.
Qed.

Lemma nth_column F n t i : i < n -> nth i (column F n t) zero = entry F i t.
Proof. intro H. unfold column. now rewrite nth_map_seq. Qed.

(** On a well-formed model the forward pass returns an N by T lattice
    whose first column is [pi[i] * B[i][obs[0]]] and whose later columns
    follow the recurrence as the notebook computes it. *)
Lemma forward_as_coded N M pi B A obs_seq :
  length pi = N -> shape N N A -> shape N M B -> obs_valid M obs_seq ->
  1 <= length obs_seq ->
  exists alpha,
    calculate_forward_probabilities pi B A obs_seq = Ok alpha /\
    shape N (length obs_seq) alpha /\
    (forall i, i < N ->
       entry alpha i 0 = nmul (nth i pi zero) (entry B i (nth 0 obs_seq 0))) /\
    (forall i t, i < N -> 1 <= t < length obs_seq ->
       entry alpha i t = coded_forward_rule alpha B A obs_seq N i t).
Proof.
  intros Hpi HA HB Hobs HT. unfold calculate_forward_probabilities.
  rewrite (shape_length _ _ _ HA).
  set (T := length obs_seq) in *.
  assert (Ho : forall c, c < T -> nth c obs_seq 0 < M)
    by (intros; now apply obs_valid_nth).
  rewrite (list_get_nth obs_seq 0 0) by (fold T; lia). cbn [bind].
  rewrite (getcol_column N M B _ HB) by (apply Ho; lia). cbn [bind].
  rewrite bmul_same_length by (now rewrite length_column).
  cbn [bind].
  rewrite (zip_with_lists nmul pi _ N Hpi (length_column _ _ _)).
  destruct (setcol_spec N T (zeros N T) 0
              (map (fun j => nmul (nth j pi zero)
                       (nth j (column B N (nth 0 obs_seq 0)) zero)) (seq 0 N)))
    as (F0 & E0 & Hs0 & Hc0 & _);
    [apply shape_zeros | lia | now rewrite length_map, length_seq |].
  rewrite E0. cbn [bind].
  set (rule := fun (F : mat) i t => coded_forward_rule F B A obs_seq N i t).
  set (base := fun i => nmul (nth i pi zero) (entry B i (nth 0 obs_seq 0))).
  assert (Hrule : forall (F G : mat) i t, 1 <= t ->
            (forall j, entry G j (t - 1) = entry F j (t - 1)) ->
            rule G i t = rule F i t).
  { intros F G i t Ht H. unfold rule, coded_forward_rule. f_equal. f_equal.
    apply map_ext. intro j. now rewrite H. }
  destruct (for_seq_inv
    (fun c F => shape N T F /\
       (forall i, i < N -> entry F i 0 = base i) /\
       (forall i t, i < N -> 1 <= t < c -> entry F i t = rule F i t))
    (fun c F =>
       F <- for_ (seq 0 N) (fun r F =>
              prev <- getcol F (c - 1) ;;
              a <- getrow A r ;;
              p <- bmul prev a ;;
              set2 F r c (to_float (sum_arr p))) F ;;
       fc <- getcol F c ;;
       oc <- list_get obs_seq c ;;
       ec <- getcol B oc ;;
       v <- bmul fc ec ;;
       setcol F c v)
    1 (T - 1) F0) as (F & E & Hs & Hb & Hr).
  - split; [exact Hs0|]. split; [|intros; lia].
    intros i Hi. rewrite Hc0 by assumption. rewrite nth_map_seq by assumption.
    now rewrite nth_column.
  - intros c F Hc (HsF & HbF & HrF).
    set (S_ := fun r => np_sum (map (fun j => nmul (entry F j (c - 1))
                                              (entry A r j)) (seq 0 N))).
    destruct (for_seq_inv
      (fun r G => shape N T G /\
         (forall i t', t' <> c -> entry G i t' = entry F i t') /\
         (forall r', r' < r -> entry G r' c = S_ r'))
      (fun r G =>
         prev <- getcol G (c - 1) ;;
         a <- getrow A r ;;
         p <- bmul prev a ;;
         set2 G r c (to_float (sum_arr p)))
      0 N F) as (G & EG & HsG & HoG & HcG).
    + split; [exact HsF|]. split; [reflexivity | intros; lia].
    + intros r G Hr (HsG & HoG & HcG).
      rewrite (getcol_column N T G (c - 1) HsG) by lia. cbn [bind].
      unfold getrow.
      rewrite (list_get_nth A r []) by (rewrite (shape_length _ _ _ HA); lia).
      cbn [bind].
      rewrite bmul_same_length
        by (rewrite length_column, (shape_row _ _ _ r HA); lia).
      cbn [bind]. rewrite sum_arr_float.
      destruct (set2_spec N T G r c
                  (np_sum (zip_with nmul (column G N (c - 1)) (nth r A []))))
        as (G' & EG' & HsG' & Hit & Hoth); auto; try lia.
      exists G'. split; [exact EG'|]. split; [exact HsG'|]. split.
      * intros i t' Hne. rewrite Hoth by (intro X; inversion X; lia).
        now apply HoG.
      * intros r' Hr'. destruct (Nat.eq_dec r' r) as [->|Hne].
        -- rewrite Hit. unfold S_. f_equal.
           rewrite (zip_with_lists nmul _ _ N (length_column _ _ _))
             by (apply (shape_row _ _ _ r HA); lia).
           apply map_ext_in. intros j Hj. apply in_seq in Hj.
           rewrite nth_column by lia. rewrite HoG by lia. reflexivity.
        -- rewrite Hoth by (intro X; inversion X; lia). apply HcG. lia.
    + rewrite EG. cbn [bind].
      rewrite (getcol_column N T G c HsG) by lia. cbn [bind].
      rewrite (list_get_nth obs_seq c 0) by (fold T; lia). cbn [bind].
      rewrite (getcol_column N M B _ HB) by (apply Ho; lia). cbn [bind].
      rewrite bmul_same_length by (now rewrite !length_column).
      cbn [bind].
      rewrite (zip_with_lists nmul _ _ N (length_column _ _ _)
                 (length_column _ _ _)).
      destruct (setcol_spec N T G c
                  (map (fun j => nmul (nth j (column G N c) zero)
                           (nth j (column B N (nth c obs_seq 0)) zero))
                       (seq 0 N)))
        as (F' & EF' & HsF' & HcF' & HoF');
        [exact HsG | lia | now rewrite length_map, length_seq |].
      exists F'. split; [exact EF'|]. split; [exact HsF'|]. split.
      * intros i Hi. rewrite HoF' by lia. rewrite HoG by lia. now apply HbF.
      * intros i t Hi Ht. destruct (Nat.eq_dec t c) as [->|Hne].
        -- rewrite HcF' by assumption. rewrite nth_map_seq by assumption.
           rewrite !nth_column by assumption.
           rewrite HcG by lia.
           unfold rule, coded_forward_rule. f_equal. unfold S_. f_equal.
           apply map_ext. intro j.
           rewrite HoF' by lia. rewrite HoG by lia. reflexivity.
        -- rewrite HoF' by assumption. rewrite HoG by assumption.
           rewrite HrF by (auto; lia).
           symmetry. apply Hrule; [lia|].
           intro j. rewrite HoF' by lia. apply HoG. lia.
  - exists F. split; [exact E|]. split; [exact Hs|]. split; [exact Hb|].
    intros i t Hi Ht. apply Hr; [assumption|]. lia.
Qed.

Lemma nmul_comm (x y : num) : nmul x y = nmul y x.
Proof.
  destruct x as [a| | |], y as [b| | |]; simpl; try reflexivity;
    try (f_equal; ring);
    try (destruct (a ?= Q2Qc 0)%Qc; reflexivity);
    try (destruct (b ?= Q2Qc 0)%Qc; reflexivity).
Qed.

(** With a symmetric transition matrix the two forward recurrences
    coincide, so the notebook's lattice is the specification's. *)
Lemma forward_symmetric N M pi B A obs_seq :
  length pi = N -> shape N N A -> shape N M B -> obs_valid M obs_seq ->
  1 <= length obs_seq -> symmetric N A ->
  exists alpha,
    calculate_forward_probabilities pi B A obs_seq = Ok alpha /\
    (forall i, i < N ->
       entry alpha i 0 = nmul (nth i pi zero) (entry B i (nth 0 obs_seq 0))) /\
    (forall i t, i < N -> 1 <= t < length obs_seq ->
       entry alpha i t = spec_forward_rule alpha B A obs_seq N i t).
Proof.
  intros Hpi HA HB Hobs HT Hsym.
  destruct (forward_as_coded N M pi B A obs_seq Hpi HA HB Hobs HT)
    as (alpha & E & _ & Hb & Hr).
  exists alpha. split; [exact E|]. split; [exact Hb|].
  intros i t Hi Ht. rewrite Hr by assumption.
  unfold coded_forward_rule, spec_forward_rule.
  rewrite nmul_comm. f_equal. f_equal.
  apply map_ext_in. intros j Hj. apply in_seq in Hj.
  rewrite (Hsym i j) by lia. reflexivity.
Qed.

(* ================================================================== *)
(** ** What the backward pass computes *)

(** On a well-formed model with two states the backward pass returns a
    lattice whose last column is ones and whose earlier columns follow the
    recurrence as the notebook computes it. *)
Lemma backward_as_coded M B A obs_seq :
  shape 2 2 A -> shape 2 M B -> obs_valid M obs_seq ->
  1 <= length obs_seq ->
  exists beta,
    calculate_backward_probabilities B A obs_seq = Ok beta /\
    shape 2 (length obs_seq) beta /\
    (forall i, i < 2 -> entry beta i (length obs_seq - 1) = one) /\
    (forall i t, i < 2 -> t < length obs_seq - 1 ->
       entry beta i t = coded_backward_rule beta B A obs_seq 2 i t).
Proof.
  intros HA HB Hobs HT. unfold calculate_backward_probabilities.
  rewrite (shape_length _ _ _ HA).
  set (T := length obs_seq) in *.
  assert (Ho : forall c, c < T -> nth c obs_seq 0 < M)
    by (intros; now apply obs_valid_nth).
  destruct (Nat.eqb_spec T 0) as [|_]; [lia|].
  destruct (setcol_spec 2 T (zeros 2 T) (T - 1) (ones 2))
    as (F0 & E0 & Hs0 & Hc0 & _); [apply shape_zeros | lia | reflexivity |].
  rewrite E0. cbn [bind].
  set (rule := fun (F : mat) i t => coded_backward_rule F B A obs_seq 2 i t).
  assert (Hrule : forall (F G : mat) i t,
            entry G i (t + 1) = entry F i (t + 1) -> rule G i t = rule F i t).
  { intros F G i t H. unfold rule, coded_backward_rule. f_equal.
    apply map_ext. intro j. now rewrite H. }
  destruct (for_rev_seq_inv
    (fun c F => shape 2 T F /\
       (forall i, i < 2 -> entry F i (T - 1) = one) /\
       (forall i t, i < 2 -> c <= t < T - 1 -> entry F i t = rule F i t))
    (fun c F =>
       for_ (seq 0 2) (fun r F =>
         x1 <- get2 F r (c + 1) ;;
         x2 <- get2 F r (c + 1) ;;
         a <- getrow A r ;;
         p <- bmul [x1; x2] a ;;
         oc <- list_get obs_seq c ;;
         e <- getcol B oc ;;
         q <- bmul p e ;;
         set2 F r c (np_sum q)) F)
    (T - 1) F0) as (F & E & Hs & Hb & Hr).
  - split; [exact Hs0|]. split; [|intros; lia].
    intros i Hi. rewrite Hc0 by assumption.
    destruct i as [|[|i]]; try lia; reflexivity.
  - intros c F Hc (HsF & HbF & HrF).
    destruct (for_seq_inv
      (fun r G => shape 2 T G /\
         (forall i t', t' <> c -> entry G i t' = entry F i t') /\
         (forall r', r' < r -> entry G r' c = rule F r' c))
      (fun r G =>
         x1 <- get2 G r (c + 1) ;;
         x2 <- get2 G r (c + 1) ;;
         a <- getrow A r ;;
         p <- bmul [x1; x2] a ;;
         oc <- list_get obs_seq c ;;
         e <- getcol B oc ;;
         q <- bmul p e ;;
         set2 G r c (np_sum q))
      0 2 F) as (G & EG & HsG & HoG & HcG).
    + split; [exact HsF|]. split; [reflexivity | intros; lia].
    + intros r G Hr (HsG & HoG & HcG).
      rewrite (get2_entry 2 T G r (c + 1)) by (auto; lia). cbn [bind].
      unfold getrow.
      rewrite (list_get_nth A r []) by (rewrite (shape_length _ _ _ HA); lia).
      cbn [bind].
      rewrite bmul_same_length by (rewrite (shape_row _ _ _ r HA); simpl; lia).
      cbn [bind].
      rewrite (list_get_nth obs_seq c 0) by (fold T; lia). cbn [bind].
      rewrite (getcol_column 2 M B _ HB) by (apply Ho; lia). cbn [bind].
      rewrite (zip_with_lists nmul [entry G r (c + 1); entry G r (c + 1)]
                 (nth r A []) 2 eq_refl)
        by (apply (shape_row _ _ _ r HA); lia).
      rewrite bmul_same_length by (now rewrite length_map, length_seq, length_column).
      cbn [bind].
      destruct (set2_spec 2 T G r c
                  (np_sum (zip_with nmul
                     (map (fun j => nmul
                        (nth j [entry G r (c + 1); entry G r (c + 1)] zero)
                        (nth j (nth r A []) zero)) (seq 0 2))
                     (column B 2 (nth c obs_seq 0)))))
        as (G' & EG' & HsG' & Hit & Hoth); auto; try lia.
      exists G'. split; [exact EG'|]. split; [exact HsG'|]. split.
      * intros i t' Hne. rewrite Hoth by (intro X; inversion X; lia).
        now apply HoG.
      * intros r' Hr'. destruct (Nat.eq_dec r' r) as [->|Hne].
        -- rewrite Hit. unfold rule, coded_backward_rule.
           rewrite HoG by lia. reflexivity.
        -- rewrite Hoth by (intro X; inversion X; lia). apply HcG. lia.
    + exists G. split; [exact EG|]. split; [exact HsG|]. split.
      * intros i Hi. rewrite HoG by lia. now apply HbF.
      * intros i t Hi Ht. destruct (Nat.eq_dec t c) as [->|Hne].
        -- rewrite HcG by assumption. symmetry. apply Hrule.
           apply HoG. lia.
        -- rewrite HoG by assumption. rewrite HrF by (auto; lia).
           symmetry. apply Hrule. apply HoG. lia.
  - exists F. split; [exact E|]. split; [exact Hs|]. split; [exact Hb|].
    intros i t Hi Ht. apply Hr; [assumption|]. lia.
Qed.

(* ================================================================== *)
(** ** What the decoder computes *)

Lemma sbind_lift_ok {A B} (m : res A) (k : A -> St B) a st :
  m = Ok a -> sbind (lift m) k st = k a st.
Proof. now intros ->. Qed.

Lemma sfor_seq_inv {S} (I : nat -> S -> store -> Prop) body a n s st :
  I a s st ->
  (forall i s st, a <= i < a + n -> I i s st ->
     exists s' st', body i s st = (Ok s', st') /\ I (Datatypes.S i) s' st') ->
  exists s' st', sfor (seq a n) body s st = (Ok s', st') /\ I (a + n) s' st'.
Proof.
  revert a s st; induction n as [|n IH]; intros a s st H0 Hstep; simpl.
  - exists s, st. rewrite Nat.add_0_r. auto.
  - destruct (Hstep a s st) as (s1 & st1 & E1 & H1); [lia | assumption |].
    unfold sbind at 1. rewrite E1.
    destruct (IH (Datatypes.S a) s1 st1 H1) as (s2 & st2 & E2 & H2).
    + intros i s' st' Hi. apply Hstep. lia.
    + exists s2, st2. split; auto.
      now replace (a + Datatypes.S n) with (Datatypes.S a + n) by lia.
Qed.

Lemma idxmax_label (v : vec) : 0 < length v -> idxmax v = Ok (label v).
Proof.
  destruct v as [|x v]; simpl; [lia|]. intros _. unfold label. simpl.
  destruct (is_nan x && forallb is_nan v); reflexivity.
Qed.

Lemma py_max_greatest (v : vec) : 0 < length v -> py_max v = Ok (greatest v).
Proof. destruct v; simpl; [lia | reflexivity]. Qed.

Lemma column_ext (F G : mat) n t :
  (forall i, entry G i t = entry F i t) -> column G n t = column F n t.
Proof. intro H. unfold column. apply map_ext. intro i. apply H. Qed.

(** On a well-formed model with at least one state [viterbi] returns an
    N by T matrix whose first column is [pi[i] * B[i][obs[0]]], whose later
    columns follow the recurrence as the notebook computes it, and appends
    to the list one label per column: the first greatest state of that
    column. *)
Lemma viterbi_as_coded N M pi B A obs_seq st :
  1 <= N -> length pi = N -> shape N N A -> shape N M B ->
  obs_valid M obs_seq -> 1 <= length obs_seq ->
  exists delta,
    viterbi pi B A obs_seq st
    = (Ok delta,
       st ++ map (fun t => label (column delta N t)) (seq 0 (length obs_seq))) /\
    shape N (length obs_seq) delta /\
    (forall i, i < N ->
       entry delta i 0 = nmul (nth i pi zero) (entry B i (nth 0 obs_seq 0))) /\
    (forall i t, i < N -> 1 <= t < length obs_seq ->
       entry delta i t = coded_decode_rule delta B A obs_seq N i t).
Proof.
  intros HN Hpi HA HB Hobs HT. unfold viterbi.
  rewrite (shape_length _ _ _ HA).
  set (T := length obs_seq) in *.
  assert (Ho : forall c, c < T -> nth c obs_seq 0 < M)
    by (intros; now apply obs_valid_nth).
  destruct (setcol_spec N T (zeros N T) 0
              (map (fun j => nmul (nth j pi zero)
                       (nth j (column B N (nth 0 obs_seq 0)) zero)) (seq 0 N)))
    as (F0 & E0 & Hs0 & Hc0 & _);
    [apply shape_zeros | lia | now rewrite length_map, length_seq |].
  rewrite (sbind_lift_ok _ _ F0).
  2:{ rewrite (list_get_nth obs_seq 0 0) by (fold T; lia). cbn [bind].
      rewrite (getcol_column N M B _ HB) by (apply Ho; lia). cbn [bind].
      rewrite bmul_same_length by (now rewrite length_column).
      cbn [bind].
      rewrite (zip_with_lists nmul pi _ N Hpi (length_column _ _ _)).
      exact E0. }
  rewrite (sbind_lift_ok _ _ (label (column F0 N 0))).
  2:{ rewrite (getcol_column N T F0 0 Hs0) by lia. cbn [bind].
      apply idxmax_label. rewrite length_column. lia. }
  unfold sbind at 1. unfold append at 1.
  set (rule := fun (F : mat) i t => coded_decode_rule F B A obs_seq N i t).
  set (base := fun i => nmul (nth i pi zero) (entry B i (nth 0 obs_seq 0))).
  assert (Hrule : forall (F G : mat) i t,
            (forall j, entry G j (t - 1) = entry F j (t - 1)) ->
            rule G i t = rule F i t).
  { intros F G i t H. unfold rule, coded_decode_rule. f_equal. f_equal.
    apply map_ext. intro j. now rewrite H. }
  destruct (sfor_seq_inv
    (fun c F st' => shape N T F /\
       (forall i, i < N -> entry F i 0 = base i) /\
       (forall i t, i < N -> 1 <= t < c -> entry F i t = rule F i t) /\
       st' = st ++ map (fun t => label (column F N t)) (seq 0 c))
    (fun c F =>
     F <~ lift (for_ (seq 0 N) (fun r F =>
                  a <- getrow A r ;;
                  prev <- getcol F (c - 1) ;;
                  p <- bmul a prev ;;
                  m <- py_max p ;;
                  set2 F r c m) F) ;;
     F <~ lift (fc <- getcol F c ;;
                oc <- list_get obs_seq c ;;
                ec <- getcol B oc ;;
                v <- bmul fc ec ;;
                setcol F c v) ;;
     k <~ lift (t <- getcol F c ;; idxmax t) ;;
     _ <~ append k ;;
     sret F)%st
    1 (T - 1) F0 (st ++ [label (column F0 N 0)]))
    as (F & st' & E & Hs & Hb & Hr & Hst).
  - split; [exact Hs0|]. split; [|split; [intros; lia | reflexivity]].
    intros i Hi. rewrite Hc0 by assumption. rewrite nth_map_seq by assumption.
    now rewrite nth_column.
  - intros c F stc Hc (HsF & HbF & HrF & HstF).
    set (S_ := fun r => greatest (map (fun j => nmul (entry A r j)
                                          (entry F j (c - 1))) (seq 0 N))).
    destruct (for_seq_inv
      (fun r G => shape N T G /\
         (forall i t', t' <> c -> entry G i t' = entry F i t') /\
         (forall r', r' < r -> entry G r' c = S_ r'))
      (fun r G =>
         a <- getrow A r ;;
         prev <- getcol G (c - 1) ;;
         p <- bmul a prev ;;
         m <- py_max p ;;
         set2 G r c m)
      0 N F) as (G & EG & HsG & HoG & HcG).
    + split; [exact HsF|]. split; [reflexivity | intros; lia].
    + intros r G Hr (HsG & HoG & HcG).
      unfold getrow.
      rewrite (list_get_nth A r []) by (rewrite (shape_length _ _ _ HA); lia).
      cbn [bind].
      rewrite (getcol_column N T G (c - 1) HsG) by lia. cbn [bind].
      rewrite bmul_same_length
        by (rewrite length_column, (shape_row _ _ _ r HA); lia).
      cbn [bind].
      rewrite (zip_with_lists nmul _ _ N) by
        (try apply length_column; apply (shape_row _ _ _ r HA); lia).
      rewrite py_max_greatest by (rewrite length_map, length_seq; lia).
      cbn [bind].
      destruct (set2_spec N T G r c
                  (greatest (map (fun j => nmul (nth j (nth r A []) zero)
                                     (nth j (column G N (c - 1)) zero))
                                 (seq 0 N))))
        as (G' & EG' & HsG' & Hit & Hoth); auto; try lia.
      exists G'. split; [exact EG'|]. split; [exact HsG'|]. split.
      * intros i t' Hne. rewrite Hoth by (intro X; inversion X; lia).
        now apply HoG.
      * intros r' Hr'. destruct (Nat.eq_dec r' r) as [->|Hne].
        -- rewrite Hit. unfold S_. f_equal.
           apply map_ext_in. intros j Hj. apply in_seq in Hj.
           rewrite nth_column by lia. rewrite HoG by lia. reflexivity.
        -- rewrite Hoth by (intro X; inversion X; lia). apply HcG. lia.
    + destruct (setcol_spec N T G c
                  (map (fun j => nmul (nth j (column G N c) zero)
                           (nth j (column B N (nth c obs_seq 0)) zero))
                       (seq 0 N)))
        as (F' & EF' & HsF' & HcF' & HoF');
        [exact HsG | lia | now rewrite length_map, length_seq |].
      exists F', (stc ++ [label (column F' N c)]). split.
      * rewrite (sbind_lift_ok _ _ G _ EG).
        rewrite (sbind_lift_ok _ _ F').
        2:{ rewrite (getcol_column N T G c HsG) by lia. cbn [bind].
            rewrite (list_get_nth obs_seq c 0) by (fold T; lia). cbn [bind].
            rewrite (getcol_column N M B _ HB) by (apply Ho; lia). cbn [bind].
            rewrite bmul_same_length by (now rewrite !length_column).
            cbn [bind].
            rewrite (zip_with_lists nmul _ _ N (length_column _ _ _)
                       (length_column _ _ _)).
            exact EF'. }
        rewrite (sbind_lift_ok _ _ (label (column F' N c))).
        2:{ rewrite (getcol_column N T F' c HsF') by lia. cbn [bind].
            apply idxmax_label. rewrite length_column. lia. }
        reflexivity.
      * split; [exact HsF'|].
        assert (Hsame : forall i t, t <> c -> entry F' i t = entry F i t).
        { intros i t Hne. rewrite HoF' by assumption. now apply HoG. }
        split; [|split].
        -- intros i Hi. rewrite Hsame by lia. now apply HbF.
        -- intros i t Hi Ht. destruct (Nat.eq_dec t c) as [->|Hne].
           ++ rewrite HcF' by assumption. rewrite nth_map_seq by assumption.
              rewrite !nth_column by assumption.
              rewrite HcG by lia.
              unfold rule, coded_decode_rule. f_equal. unfold S_. f_equal.
              apply map_ext. intro j. rewrite Hsame by lia. reflexivity.
           ++ rewrite Hsame by assumption. rewrite HrF by (auto; lia).
              symmetry. apply Hrule. intro j. apply Hsame. lia.
        -- rewrite HstF, seq_S, map_app, app_assoc. simpl. f_equal.
           f_equal. apply map_ext_in. intros t Ht. apply in_seq in Ht.
           f_equal. symmetry. apply column_ext. intro i. apply Hsame. lia.
  - exists F. split.
    + rewrite E. f_equal. rewrite Hst.
      replace (1 + (T - 1)) with T by lia. reflexivity.
    + split; [exact Hs|]. split; [exact Hb|].
      intros i t Hi Ht. apply Hr; [assumption|]. lia.
Qed.

(* ================================================================== *)
(** ** Order on the rationals *)


(** C9, as the code has it: [viterbi] computes its matrix from its
    arguments alone, but it keeps the decoded path in the process-wide
    list.  On every well-formed model with at least one observation a call
    appends one entry per observation to the list, whatever the list
    holds; called twice with identical arguments, the second call returns
    the same matrix and leaves the list holding the old content, the path,
    and the same path again, which is not the list the first call left. *)
Theorem decode_twice_repeats_path N M pi B A obs_seq st :
  1 <= N -> length pi = N -> shape N N A -> shape N M B ->
  obs_valid M obs_seq -> 1 <= length obs_seq ->
  exists delta path,
    length path = length obs_seq /\
    viterbi pi B A obs_seq st = (Ok delta, st ++ path) /\
    viterbi pi B A obs_seq (st ++ path) = (Ok delta, st ++ path ++ path) /\
    st ++ path ++ path <> st ++ path.
Proof.
  intros HN Hpi HA HB Hobs HT.
  destruct (viterbi_as_coded N M pi B A obs_seq [] HN Hpi HA HB Hobs HT)
    as (delta & E & _).
  cbn [app] in E.
  exists delta, (map (fun t => label (column delta N t))
                     (seq 0 (length obs_seq))).
  assert (Hl : length (map (fun t => label (column delta N t))
                           (seq 0 (length obs_seq))) = length obs_seq)
    by (now rewrite length_map, length_seq).
  split; [exact Hl|]. split; [|split].
  - rewrite (viterbi_appends pi B A obs_seq st), E. reflexivity.
  - rewrite (viterbi_appends pi B A obs_seq (st ++ _)), E. cbn [fst snd].
    now rewrite app_assoc.
  - intro H. apply (f_equal (@length pyval)) in H.
    rewrite !length_app, Hl in H. lia.
Qed.

(** C9 on the notebook's input, from a list that already holds an
    entry. *)
Lemma decode_twice_repeats_path_demo :
  exists delta path,
    length path = 10 /\
    viterbi demo_pi demo_B demo_A demo_obs [PInt 1]
    = (Ok delta, [PInt 1] ++ path) /\
    viterbi demo_pi demo_B demo_A demo_obs ([PInt 1] ++ path)
    = (Ok delta, [PInt 1] ++ path ++ path) /\
    [PInt 1] ++ path ++ path <> [PInt 1] ++ path.
Proof.
  apply (decode_twice_repeats_path 2 2 demo_pi demo_B demo_A demo_obs [PInt 1]);
    try reflexivity; simpl; lia.
Defined.


(* ================================================================== *)
(** * Further properties of the notebook's functions *)

(** ** The lattices in general *)

(** X1: on every well-formed model (pi of length N, A of shape N by N, B
    of shape N by M, at least one observation, every observation below M)
    [calculate_forward_probabilities] returns an N by T lattice with
    alpha[i][0] = pi[i] * B[i][obs[0]] and, for t >= 1,
    alpha[i][t] = (sum_j alpha[j][t-1] * A[i][j]) * B[i][obs[t]]: the sum
    runs along row [i] of the transition matrix. *)
Theorem forward_follows_row_recurrence N M pi B A obs_seq :
  length pi = N -> shape N N A -> shape N M B -> obs_valid M obs_seq ->
  1 <= length obs_seq ->
  exists alpha,
    calculate_forward_probabilities pi B A obs_seq = Ok alpha /\
    shape N (length obs_seq) alpha /\
    (forall i, i < N ->
       entry alpha i 0 = nmul (nth i pi zero) (entry B i (nth 0 obs_seq 0))) /\
    (forall i t, i < N -> 1 <= t < length obs_seq ->
       entry alpha i t = coded_forward_rule alpha B A obs_seq N i t).
Proof. apply forward_as_coded. Qed.

Lemma forward_follows_row_recurrence_demo :
  exists alpha,
    calculate_forward_probabilities demo_pi demo_B skew_A demo_obs = Ok alpha /\
    shape 2 10 alpha /\
    (forall i, i < 2 ->
       entry alpha i 0 = nmul (nth i demo_pi zero) (entry demo_B i 0)) /\
    (forall i t, i < 2 -> 1 <= t < 10 ->
       entry alpha i t = coded_forward_rule alpha demo_B skew_A demo_obs 2 i t).
Proof.
  apply (forward_follows_row_recurrence 2 2 demo_pi demo_B skew_A demo_obs);
    try reflexivity; simpl; lia.
Defined.

(** X2: when the transition matrix is symmetric, the lattice
    [calculate_forward_probabilities] returns satisfies the standard
    forward recurrence alpha[i][t] = B[i][obs[t]] * sum_j alpha[j][t-1] *
    A[j][i]. *)
Theorem forward_standard_when_symmetric N M pi B A obs_seq :
  length pi = N -> shape N N A -> shape N M B -> obs_valid M obs_seq ->
  1 <= length obs_seq -> symmetric N A ->
  exists alpha,
    calculate_forward_probabilities pi B A obs_seq = Ok alpha /\
    (forall i, i < N ->
       entry alpha i 0 = nmul (nth i pi zero) (entry B i (nth 0 obs_seq 0))) /\
    (forall i t, i < N -> 1 <= t < length obs_seq ->
       entry alpha i t = spec_forward_rule alpha B A obs_seq N i t).
Proof. apply forward_symmetric. Qed.

Lemma demo_A_symmetric : symmetric 2 demo_A.
Proof.
  intros i j Hi Hj.
  destruct i as [|[|i]], j as [|[|j]]; try lia; reflexivity.
Defined.

Lemma forward_standard_when_symmetric_demo :
  exists alpha,
    calculate_forward_probabilities demo_pi demo_B demo_A demo_obs = Ok alpha /\
    (forall i, i < 2 ->
       entry alpha i 0 = nmul (nth i demo_pi zero) (entry demo_B i 0)) /\
    (forall i t, i < 2 -> 1 <= t < 10 ->
       entry alpha i t = spec_forward_rule alpha demo_B demo_A demo_obs 2 i t).
Proof.
  apply (forward_standard_when_symmetric 2 2 demo_pi demo_B demo_A demo_obs);
    try reflexivity; try exact demo_A_symmetric; simpl; lia.
Defined.

(** X3: on every well-formed model with two states
    [calculate_backward_probabilities] returns a 2 by T lattice whose last
    column is ones and in which, for t < T - 1,
    beta[i][t] = sum_j beta[i][t+1] * A[i][j] * B[j][obs[t]]: the next
    value of the state itself and the emission of the current
    observation. *)
Theorem backward_two_states_recurrence M B A obs_seq :
  shape 2 2 A -> shape 2 M B -> obs_valid M obs_seq ->
  1 <= length obs_seq ->
  exists beta,
    calculate_backward_probabilities B A obs_seq = Ok beta /\
    shape 2 (length obs_seq) beta /\
    (forall i, i < 2 -> entry beta i (length obs_seq - 1) = one) /\
    (forall i t, i < 2 -> t < length obs_seq - 1 ->
       entry beta i t = coded_backward_rule beta B A obs_seq 2 i t).
Proof. apply backward_as_coded. Qed.

Lemma backward_two_states_recurrence_demo :
  exists beta,
    calculate_backward_probabilities demo_B skew_A demo_obs = Ok beta /\
    shape 2 10 beta /\
    (forall i, i < 2 -> entry beta i 9 = one) /\
    (forall i t, i < 2 -> t < 9 ->
       entry beta i t = coded_backward_rule beta demo_B skew_A demo_obs 2 i t).
Proof.
  apply (backward_two_states_recurrence 2 demo_B skew_A demo_obs);
    try reflexivity; simpl; lia.
Defined.

(** X4: on every well-formed model with at least one state [viterbi]
    returns an N by T matrix with delta[i][0] = pi[i] * B[i][obs[0]] and
    delta[i][t] = (max_j A[i][j] * delta[j][t-1]) * B[i][obs[t]], and
    appends to the process-wide list exactly T entries, the [t]-th being
    the position of the first greatest entry of column [t]. *)
Theorem viterbi_matrix_and_labels N M pi B A obs_seq st :
  1 <= N -> length pi = N -> shape N N A -> shape N M B ->
  obs_valid M obs_seq -> 1 <= length obs_seq ->
  exists delta,
    viterbi pi B A obs_seq st
    = (Ok delta,
       st ++ map (fun t => label (column delta N t)) (seq 0 (length obs_seq))) /\
    shape N (length obs_seq) delta /\
    (forall i, i < N ->
       entry delta i 0 = nmul (nth i pi zero) (entry B i (nth 0 obs_seq 0))) /\
    (forall i t, i < N -> 1 <= t < length obs_seq ->
       entry delta i t = coded_decode_rule delta B A obs_seq N i t).
Proof. apply viterbi_as_coded. Qed.

Lemma viterbi_matrix_and_labels_demo :
  exists delta,
    viterbi demo_pi demo_B skew_A demo_obs [PInt 7]
    = (Ok delta,
       [PInt 7] ++ map (fun t => label (column delta 2 t)) (seq 0 10)) /\
    shape 2 10 delta /\
    (forall i, i < 2 ->
       entry delta i 0 = nmul (nth i demo_pi zero) (entry demo_B i 0)) /\
    (forall i t, i < 2 -> 1 <= t < 10 ->
       entry delta i t = coded_decode_rule delta demo_B skew_A demo_obs 2 i t).
Proof.
  apply (viterbi_matrix_and_labels 2 2 demo_pi demo_B skew_A demo_obs [PInt 7]);
    try reflexivity; simpl; lia.
Defined.

(** ** Labelling the decoded path *)

Lemma sfor_app {S} (l1 l2 : list nat) (body : nat -> S -> St S) s st :
  sfor (l1 ++ l2) body s st
  = match sfor l1 body s st with
    | (Ok s', st') => sfor l2 body s' st'
    | (Raise e, st') => (Raise e, st')
    end.
Proof.
  revert s st; induction l1 as [|i l1 IH]; intros s st; simpl; auto.
  unfold sbind. destruct (body i s st) as [[s'|e] st']; [apply IH | reflexivity].
Qed.

Lemma skipn_cons_nth {A} (l : list A) i d :
  i < length l -> skipn i l = nth i l d :: skipn (S i) l.
Proof.
  revert i; induction l as [|x l IH]; intros [|i] H; simpl in *; try lia; auto.
  apply IH. lia.
Qed.

Lemma firstn_snoc_nth {A} (l : list A) i d :
  i < length l -> firstn (S i) l = firstn i l ++ [nth i l d].
Proof.
  revert i; induction l as [|x l IH]; intros [|i] H; simpl in *; try lia; auto.
  f_equal. apply IH. lia.
Qed.

Lemma list_get_middle {A} (l1 l2 : list A) x i :
  length l1 = i -> list_get (l1 ++ x :: l2) i = Ok x.
Proof.
  intros <-. unfold list_get. rewrite nth_error_app2 by lia.
  now rewrite Nat.sub_diag.
Qed.

Lemma set_nth_middle {A} (l1 l2 : list A) x y i :
  length l1 = i -> set_nth (l1 ++ x :: l2) i y = l1 ++ y :: l2.
Proof.
  intros <-. induction l1 as [|z l1 IH]; simpl; [reflexivity | now rewrite IH].
Qed.

(** The loop of [calculate_viterbi_path] over a run of valid indices at
    the head of the list replaces each of them by its label. *)
Lemma path_prefix states ks rest :
  (forall k, In k ks -> k < length states) ->
  sfor (seq 0 (length ks)) (fun i (_ : unit) =>
     v <~ (fun st => (list_get st i, st)) ;;
     s <~ lift (match v with
                | PInt k => list_get states k
                | _ => Raise TypeError
                end) ;;
     fun st => (Ok tt, set_nth st i (PStr s)))%st tt (map PInt ks ++ rest)
  = (Ok tt, map (named states) ks ++ rest).
Proof.
  intro Hks.
  destruct (sfor_seq_inv
    (fun i (_ : unit) st =>
       st = map (named states) (firstn i ks) ++ map PInt (skipn i ks) ++ rest)
    (fun i (_ : unit) =>
     v <~ (fun st => (list_get st i, st)) ;;
     s <~ lift (match v with
                | PInt k => list_get states k
                | _ => Raise TypeError
                end) ;;
     fun st => (Ok tt, set_nth st i (PStr s)))%st
    0 (length ks) tt (map PInt ks ++ rest)) as ([] & st' & E & H).
  - reflexivity.
  - intros i [] st Hi ->.
    assert (Hl : length (map (named states) (firstn i ks)) = i)
      by (rewrite length_map, length_firstn; lia).
    rewrite (skipn_cons_nth ks i 0) by lia. cbn [map app].
    exists tt, (map (named states) (firstn i ks) ++
                named states (nth i ks 0) :: map PInt (skipn (S i) ks) ++ rest).
    split.
    + unfold sbind at 1. rewrite list_get_middle by exact Hl.
      unfold sbind, lift.
      rewrite (list_get_nth states (nth i ks 0) EmptyString)
        by (apply Hks, nth_In; lia).
      now rewrite set_nth_middle by exact Hl.
    + rewrite (firstn_snoc_nth ks i 0) by lia.
      rewrite map_app, <- app_assoc. reflexivity.
  - rewrite E. f_equal. rewrite H. cbn [Nat.add].
    now rewrite firstn_all, skipn_all.
Qed.

Lemma label_all states ks :
  ks <> [] -> (forall k, In k ks -> k < length states) ->
  calculate_viterbi_path states (map PInt ks)
  = (Ok tt, map (named states) ks).
Proof.
  intros Hne Hks. unfold calculate_viterbi_path.
  unfold sbind at 1.
  rewrite (list_get_nth (map PInt ks) _ PNan)
    by (rewrite length_map; destruct ks; [congruence | simpl; lia]).
  unfold sbind at 1. rewrite length_map.
  pose proof (path_prefix states ks [] Hks) as H.
  rewrite !app_nil_r in H. exact H.
Qed.

(** X5: on a list of state indices that is not empty and names only
    states that have a label, [calculate_viterbi_path] raises nothing and
    leaves the list holding the label of every entry, in order. *)
Theorem path_indices_become_labels states ks :
  ks <> [] -> (forall k, In k ks -> k < length states) ->
  calculate_viterbi_path states (map PInt ks)
  = (Ok tt, map (named states) ks).
Proof. apply label_all. Qed.

Lemma path_indices_become_labels_demo :
  calculate_viterbi_path ["A"%string; "B"%string] (map PInt [1; 1; 0])
  = (Ok tt, map (named ["A"%string; "B"%string]) [1; 1; 0]).
Proof.
  apply (path_indices_become_labels ["A"%string; "B"%string] [1; 1; 0]).
  - discriminate.
  - simpl. intros k [<-|[<-|[<-|[]]]]; lia.
Defined.

Lemma label_stops states ks v rest e :
  (forall k, In k ks -> k < length states) ->
  entry_error states v = Some e ->
  calculate_viterbi_path states (map PInt ks ++ v :: rest)
  = (Raise e, map (named states) ks ++ v :: rest).
Proof.
  intros Hks Hv. unfold calculate_viterbi_path.
  unfold sbind at 1.
  rewrite (list_get_nth (map PInt ks ++ v :: rest) _ PNan)
    by (rewrite length_app; simpl; lia).
  unfold sbind at 1.
  replace (length (map PInt ks ++ v :: rest))
    with (length ks + S (length rest))
    by (rewrite length_app, length_map; reflexivity).
  rewrite seq_app, sfor_app, (path_prefix states ks (v :: rest) Hks).
  cbn [Nat.add seq sfor].
  unfold sbind at 1. unfold sbind at 1.
  rewrite list_get_middle by apply length_map. unfold sbind, lift.
  destruct v as [k| |]; simpl in Hv.
  - destruct (Nat.ltb_spec k (length states)) as [|Hk]; [discriminate|].
    injection Hv as <-. now rewrite list_get_out by lia.
  - now injection Hv as <-.
  - now injection Hv as <-.
Qed.

(** X6: [calculate_viterbi_path] converts the list in place, entry by
    entry, and stops at the first entry that is not the index of a label:
    a string or NaN raises [TypeError], an index beyond the labels raises
    [IndexError], and the entries before it stay converted while that
    entry and the ones after it are left as they were. *)
Theorem path_conversion_stops_at_bad_entry states ks v rest e :
  (forall k, In k ks -> k < length states) ->
  entry_error states v = Some e ->
  calculate_viterbi_path states (map PInt ks ++ v :: rest)
  = (Raise e, map (named states) ks ++ v :: rest).
Proof. apply label_stops. Qed.

Lemma path_conversion_stops_at_bad_entry_demo :
  calculate_viterbi_path ["A"%string; "B"%string]
    (map PInt [1; 0] ++ PStr "B"%string :: [PInt 0])
  = (Raise TypeError,
     map (named ["A"%string; "B"%string]) [1; 0] ++ PStr "B"%string :: [PInt 0]).
Proof.
  apply (path_conversion_stops_at_bad_entry ["A"%string; "B"%string] [1; 0]).
  - simpl. intros k [<-|[<-|[]]]; lia.
  - reflexivity.
Defined.

(** ** Backward with a single state *)

Lemma nadd_zero_l (x : num) : nadd zero x = x.
Proof.
  destruct x as [q| | |]; try reflexivity.
  unfold zero. cbn [nadd]. now rewrite Qcplus_0_l.
Qed.

Lemma single_entry (v : vec) : length v = 1 -> v = [nth 0 v zero].
Proof. destruct v as [|x [|y v]]; simpl; intro H; try lia. reflexivity. Qed.

(** X7: on every well-formed model with one state
    [calculate_backward_probabilities] returns a 1 by T lattice whose last
    entry is 1 and in which every earlier entry is twice the product
    beta[0][t+1] * A[0][0] * B[0][obs[t]]: the vector of length 2 is
    broadcast against the single transition and emission, so the product
    is counted twice. *)
Theorem backward_one_state_doubles M B A obs_seq :
  shape 1 1 A -> shape 1 M B -> obs_valid M obs_seq ->
  1 <= length obs_seq ->
  exists beta,
    calculate_backward_probabilities B A obs_seq = Ok beta /\
    shape 1 (length obs_seq) beta /\
    entry beta 0 (length obs_seq - 1) = one /\
    (forall t, t < length obs_seq - 1 ->
       entry beta 0 t = single_backward_rule beta B A obs_seq t).
Proof.
  intros HA HB Hobs HT. unfold calculate_backward_probabilities.
  rewrite (shape_length _ _ _ HA).
  set (T := length obs_seq) in *.
  assert (Ho : forall c, c < T -> nth c obs_seq 0 < M)
    by (intros; now apply obs_valid_nth).
  destruct (Nat.eqb_spec T 0) as [|_]; [lia|].
  destruct (setcol_spec 1 T (zeros 1 T) (T - 1) (ones 1))
    as (F0 & E0 & Hs0 & Hc0 & _); [apply shape_zeros | lia | reflexivity |].
  rewrite E0. cbn [bind].
  set (rule := fun (F : mat) t => single_backward_rule F B A obs_seq t).
  assert (Hrule : forall (F G : mat) t,
            entry G 0 (t + 1) = entry F 0 (t + 1) -> rule G t = rule F t).
  { intros F G t H. unfold rule, single_backward_rule. cbv zeta. now rewrite H. }
  destruct (for_rev_seq_inv
    (fun c F => shape 1 T F /\ entry F 0 (T - 1) = one /\
       (forall t, c <= t < T - 1 -> entry F 0 t = rule F t))
    (fun c F =>
       for_ (seq 0 1) (fun r F =>
         x1 <- get2 F r (c + 1) ;;
         x2 <- get2 F r (c + 1) ;;
         a <- getrow A r ;;
         p <- bmul [x1; x2] a ;;
         oc <- list_get obs_seq c ;;
         e <- getcol B oc ;;
         q <- bmul p e ;;
         set2 F r c (np_sum q)) F)
    (T - 1) F0) as (F & E & Hs & Hb & Hr).
  - split; [exact Hs0|]. split; [|intros; lia].
    rewrite Hc0 by lia. reflexivity.
  - intros c F Hc (HsF & HbF & HrF). cbn [seq for_].
    rewrite (get2_entry 1 T F 0 (c + 1)) by (auto; lia). cbn [bind].
    unfold getrow.
    rewrite (list_get_nth A 0 []) by (rewrite (shape_length _ _ _ HA); lia).
    cbn [bind].
    rewrite (single_entry (nth 0 A []) (shape_row _ _ _ 0 HA ltac:(lia))).
    fold (entry A 0 0). cbn [bmul length Nat.eqb map bind].
    rewrite (list_get_nth obs_seq c 0) by (fold T; lia). cbn [bind].
    rewrite (getcol_column 1 M B _ HB) by (apply Ho; lia).
    cbn [bind column seq map bmul length Nat.eqb].
    destruct (set2_spec 1 T F 0 c
                (np_sum [nmul (nmul (entry F 0 (c + 1)) (entry A 0 0))
                              (entry B 0 (nth c obs_seq 0));
                         nmul (nmul (entry F 0 (c + 1)) (entry A 0 0))
                              (entry B 0 (nth c obs_seq 0))]))
      as (G & EG & HsG & Hit & Hoth); auto; try lia.
    exists G. rewrite EG. split; [reflexivity|].
    assert (Hkeep : forall t, t <> c -> entry G 0 t = entry F 0 t)
      by (intros t Hne; apply Hoth; intro X; inversion X; lia).
    split; [exact HsG|]. split.
    + rewrite Hkeep by lia. exact HbF.
    + intros t Ht. destruct (Nat.eq_dec t c) as [->|Hne].
      * rewrite Hit. unfold rule, single_backward_rule. cbv zeta.
        rewrite Hkeep by lia.
        unfold np_sum. cbn [fold_left]. now rewrite nadd_zero_l.
      * rewrite Hkeep by assumption. rewrite HrF by lia.
        symmetry. apply Hrule. apply Hkeep. lia.
  - exists F. split; [exact E|]. split; [exact Hs|]. split; [exact Hb|].
    intros t Ht. apply Hr. lia.
Qed.

Lemma backward_one_state_doubles_demo :
  exists beta,
    calculate_backward_probabilities single_B single_A [0; 1; 1] = Ok beta /\
    shape 1 3 beta /\
    entry beta 0 2 = one /\
    (forall t, t < 2 ->
       entry beta 0 t = single_backward_rule beta single_B single_A [0; 1; 1] t).
Proof.
  apply (backward_one_state_doubles 2 single_B single_A [0; 1; 1]);
    try reflexivity; simpl; lia.
Defined.

(** ** Inputs on which training fails *)

Lemma first_pass (p : nat) pi B A obs_seq :
  baum_welch (S p) pi B A obs_seq
  = match baum_welch_step pi B A obs_seq with
    | Raise e => Raised e
    | Ok (A', B', d) => baum_welch_while p d pi B' A' obs_seq
    end.
Proof.
  unfold baum_welch. cbn [baum_welch_while].
  now rewrite threshold_plus_one.
Qed.

(** X8: with a single observation [baum_welch] raises
    [ZeroDivisionError] on every well-formed model with at least one
    state: the sums over t < T - 1 of the transition update are sums of
    nothing, the [int] 0, and 0 / 0 on [int]s raises. *)
Theorem train_single_observation_raises N M pi B A o passes :
  1 <= N -> length pi = N -> shape N N A -> shape N M B -> o < M ->
  baum_welch (S passes) pi B A [o] = Raised ZeroDivisionError.
Proof.
  intros HN Hpi HA HB Ho. rewrite first_pass.
  assert (Hobs : obs_valid M [o]).
  { unfold obs_valid. cbn [forallb]. rewrite andb_true_r.
    now apply Nat.ltb_lt. }
  destruct (forward_as_coded N M pi B A [o] Hpi HA HB Hobs) as (alpha & Ea & Hsa & _);
    [simpl; lia|].
  destruct (backward_single_observation N M A B o HA HB) as (beta & Eb & Hsb).
  pose proof (shape_length _ _ _ HA) as HL.
  destruct (calculate_gamma_entries alpha beta [o] A) as (gamma & Eg & _);
    [now rewrite HL | now rewrite HL |].
  unfold baum_welch_step. rewrite Ea. cbn [bind]. rewrite Eb. cbn [bind].
  rewrite Eg. cbn [bind].
  unfold compute_xi. cbn [length Nat.sub seq for_ bind].
  rewrite HL. destruct N as [|n]; [lia|].
  cbn [seq for_ gen bind py_sum fold_left py_truediv Z.eqb].
  reflexivity.
Qed.

Lemma train_single_observation_raises_demo :
  baum_welch 3 demo_pi demo_B skew_A [1] = Raised ZeroDivisionError.
Proof.
  apply (train_single_observation_raises 2 2 demo_pi demo_B skew_A 1 2);
    try reflexivity; lia.
Defined.

(** X9: with more than two states and at least two valid observations
    [baum_welch] raises [ValueError] on every well-formed model: the first
    pass computes the forward lattice and fails in
    [calculate_backward_probabilities]. *)
Theorem train_fails_beyond_two_states N M pi B A obs_seq passes :
  2 < N -> length pi = N -> shape N N A -> shape N M B ->
  obs_valid M obs_seq -> 2 <= length obs_seq ->
  baum_welch (S passes) pi B A obs_seq = Raised ValueError.
Proof.
  intros HN Hpi HA HB Hobs HT. rewrite first_pass.
  destruct (forward_as_coded N M pi B A obs_seq Hpi HA HB Hobs)
    as (alpha & Ea & _); [lia|].
  unfold baum_welch_step. rewrite Ea. cbn [bind].
  now rewrite (backward_fails_beyond_two N M A B obs_seq HA HB HN HT).
Qed.

Lemma train_fails_beyond_two_states_demo :
  baum_welch 1 [frac 1 3; frac 1 3; frac 1 3] three_B three_A [0; 1]
  = Raised ValueError.
Proof.
  apply (train_fails_beyond_two_states 3 2
           [frac 1 3; frac 1 3; frac 1 3] three_B three_A [0; 1] 0);
    try reflexivity; simpl; lia.
Defined.

(** ** The decoder on finite models *)


























(** ** The pair posteriors [xi] *)

Lemma shape3_length d0 d1 d2 X : shape3 d0 d1 d2 X -> length X = d0.
Proof.
  unfold shape3. intro H. apply andb_prop in H as [H _].
  now apply Nat.eqb_eq.
Qed.

Lemma shape3_at d0 d1 d2 X i :
  shape3 d0 d1 d2 X -> i < d0 -> shape d1 d2 (nth i X []).
Proof.
  unfold shape3. intros H Hi. apply andb_prop in H as [H1 H2].
  apply Nat.eqb_eq in H1. rewrite forallb_forall in H2.
  apply H2, nth_In. lia.
Qed.

Lemma shape3_intro d0 d1 d2 X :
  length X = d0 -> (forall i, i < d0 -> shape d1 d2 (nth i X [])) ->
  shape3 d0 d1 d2 X.
Proof.
  intros H1 H2. unfold shape3.
  apply andb_true_intro; split; [now apply Nat.eqb_eq|].
  apply forallb_forall. intros m Hm.
  destruct (In_nth _ _ [] Hm) as (i & Hi & <-).
  apply H2. lia.
Qed.

Lemma shape3_zeros d0 d1 d2 : shape3 d0 d1 d2 (zeros3 d0 d1 d2).
Proof.
  apply shape3_intro.
  - unfold zeros3. apply repeat_length.
  - intros i Hi. unfold zeros3.
    rewrite (nth_indep _ [] (zeros d1 d2)) by (rewrite repeat_length; lia).
    rewrite nth_repeat. apply shape_zeros.
Qed.

Lemma entry3_zeros d0 d1 d2 i j t : entry3 (zeros3 d0 d1 d2) i j t = zero.
Proof.
  unfold entry3, zeros3, zeros.
  destruct (Nat.lt_ge_cases i d0) as [Hi|Hi].
  - rewrite (nth_indep _ [] (repeat (repeat zero d2) d1))
      by (rewrite repeat_length; lia).
    rewrite nth_repeat.
    destruct (Nat.lt_ge_cases j d1) as [Hj|Hj].
    + rewrite (nth_indep _ [] (repeat zero d2)) by (rewrite repeat_length; lia).
      rewrite nth_repeat.
      destruct (Nat.lt_ge_cases t d2) as [Ht|Ht].
      * apply nth_repeat.
      * apply nth_overflow. now rewrite repeat_length.
    + rewrite (nth_overflow (repeat _ d1)) by (now rewrite repeat_length).
      now destruct t.
  - rewrite (nth_overflow (repeat _ d0)) by (now rewrite repeat_length).
    destruct j; now destruct t.
Qed.

(** [X[i, j, t] = x] inside the array succeeds, keeps the shape and
    changes that entry only. *)
Lemma set3_spec d0 d1 d2 X i j t x :
  shape3 d0 d1 d2 X -> i < d0 -> j < d1 -> t < d2 ->
  exists X', set3 X i j t x = Ok X' /\ shape3 d0 d1 d2 X' /\
    entry3 X' i j t = x /\
    (forall i' j' t', (i', j', t') <> (i, j, t) ->
       entry3 X' i' j' t' = entry3 X i' j' t').
Proof.
  intros H Hi Hj Ht. unfold set3.
  pose proof (shape3_length _ _ _ _ H) as HL.
  pose proof (shape3_at _ _ _ _ i H Hi) as Hm.
  rewrite (list_get_nth X i []) by lia. cbn [bind].
  destruct (set2_spec d1 d2 (nth i X []) j t x Hm Hj Ht)
    as (m' & E & Hs & Hit & Hoth).
  rewrite E. cbn [bind].
  eexists; split; [reflexivity|]. split; [|split].
  - apply shape3_intro.
    + now rewrite length_set_nth.
    + intros k Hk. destruct (Nat.eq_dec i k) as [->|Hne].
      * now rewrite nth_set_nth_eq by lia.
      * rewrite nth_set_nth_neq by assumption. now apply (shape3_at _ _ _ _ k H).
  - unfold entry3. rewrite nth_set_nth_eq by lia. exact Hit.
  - intros i' j' t' Hne. unfold entry3.
    destruct (Nat.eq_dec i i') as [<-|Hi'].
    + rewrite nth_set_nth_eq by lia.
      apply (Hoth j' t'). congruence.
    + now rewrite nth_set_nth_neq.
Qed.

Lemma to_float_py_add (a b : pynum) :
  to_float (py_add a b) = nadd (to_float a) (to_float b).
Proof.
  destruct a as [x|x], b as [y|y]; try reflexivity.
  cbn [py_add to_float nadd]. f_equal.
  apply Qc_is_canon. unfold Qcplus, Q2Qc. cbn [this].
  rewrite !Qred_correct, inject_Z_plus. apply Qeq_refl.
Qed.

Lemma to_float_sum_from (l : list pynum) (acc : pynum) :
  to_float (fold_left py_add l acc)
  = fold_left nadd (map to_float l) (to_float acc).
Proof.
  revert acc; induction l as [|x l IH]; intro acc; simpl; auto.
  now rewrite IH, to_float_py_add.
Qed.

Lemma to_float_py_sum (l : list pynum) :
  to_float (py_sum l) = np_sum (map to_float l).
Proof. apply to_float_sum_from. Qed.

Section Xi.
Variables (N M : nat) (alpha beta A B : mat) (obs_seq : list nat).
Hypothesis Halpha : shape N (length obs_seq) alpha.
Hypothesis Hbeta : shape N (length obs_seq) beta.
Hypothesis HA : shape N N A.
Hypothesis HB : shape N M B.
Hypothesis Hobs : obs_valid M obs_seq.

Lemma xi_term_ok i j t :
  i < N -> j < N -> t + 1 < length obs_seq ->
  xi_term alpha beta obs_seq B A i j t
  = Ok (xi_num alpha beta obs_seq B A i j t).
Proof.
  intros Hi Hj Ht. unfold xi_term.
  rewrite (get2_entry N (length obs_seq) alpha i t) by (auto; lia). cbn [bind].
  rewrite (get2_entry N N A i j) by auto. cbn [bind].
  rewrite (list_get_nth obs_seq (t + 1) 0) by lia. cbn [bind].
  rewrite (get2_entry N M B j (nth (t + 1) obs_seq 0))
    by (auto; apply obs_valid_nth; auto).
  cbn [bind].
  rewrite (get2_entry N (length obs_seq) beta j (t + 1)) by auto.
  reflexivity.
Qed.

Lemma xi_quotient i j t :
  i < N -> j < N -> t + 1 < length obs_seq ->
  (numerator <- xi_term alpha beta obs_seq B A i j t ;;
   rows <- gen (seq 0 N) (fun i1 =>
             inner <- gen (seq 0 N) (fun j1 =>
                        x <- xi_term alpha beta obs_seq B A i1 j1 t ;;
                        Ok (NpFloat x)) ;;
             Ok (py_sum inner)) ;;
   py_truediv (NpFloat numerator) (py_sum rows))
  = Ok (NpFloat (ndiv (xi_num alpha beta obs_seq B A i j t)
                      (xi_den alpha beta obs_seq B A N t))).
Proof.
  intros Hi Hj Ht. rewrite xi_term_ok by assumption. cbn [bind].
  rewrite (gen_ok (seq 0 N) _
             (fun i1 => py_sum (map (fun j1 =>
                 NpFloat (xi_num alpha beta obs_seq B A i1 j1 t)) (seq 0 N)))).
  - cbn [bind]. rewrite truediv_float. do 3 f_equal.
    rewrite to_float_py_sum, map_map. unfold xi_den. f_equal.
    apply map_ext. intro i1.
    rewrite <- (map_map (fun j1 => xi_num alpha beta obs_seq B A i1 j1 t) NpFloat).
    apply sum_arr_float.
  - intros i1 Hi1. apply in_seq in Hi1.
    rewrite (gen_ok (seq 0 N) _
               (fun j1 => NpFloat (xi_num alpha beta obs_seq B A i1 j1 t))).
    + reflexivity.
    + intros j1 Hj1. apply in_seq in Hj1.
      rewrite xi_term_ok by lia. reflexivity.
Qed.

Lemma compute_xi_entries :
  exists xi,
    compute_xi alpha beta obs_seq B A = Ok xi /\
    shape3 N N (length obs_seq) xi /\
    (forall i j t, i < N -> j < N -> t < length obs_seq - 1 ->
       entry3 xi i j t = ndiv (xi_num alpha beta obs_seq B A i j t)
                              (xi_den alpha beta obs_seq B A N t)) /\
    (forall i j t, length obs_seq - 1 <= t -> entry3 xi i j t = zero).
Proof.
  unfold compute_xi. rewrite (shape_length _ _ _ HA).
  set (T := length obs_seq) in *.
  set (q := fun i j t => ndiv (xi_num alpha beta obs_seq B A i j t)
                              (xi_den alpha beta obs_seq B A N t)).
  destruct (for_seq_inv
    (fun t X => shape3 N N T X /\
       forall i j t', entry3 X i j t' =
         if (i <? N) && (j <? N) && (t' <? t) then q i j t' else zero)
    (fun t xi =>
      for_ (seq 0 N) (fun i xi =>
        for_ (seq 0 N) (fun j xi =>
          numerator <- xi_term alpha beta obs_seq B A i j t ;;
          rows <- gen (seq 0 N) (fun i1 =>
                    inner <- gen (seq 0 N) (fun j1 =>
                               x <- xi_term alpha beta obs_seq B A i1 j1 t ;;
                               Ok (NpFloat x)) ;;
                    Ok (py_sum inner)) ;;
          q <- py_truediv (NpFloat numerator) (py_sum rows) ;;
          set3 xi i j t (to_float q)) xi) xi)
    0 (T - 1) (zeros3 N N T)) as (X & E & Hs & HX).
  - split; [apply shape3_zeros|].
    intros i j t'. rewrite entry3_zeros.
    replace (t' <? 0) with false by reflexivity. now rewrite andb_false_r.
  - intros t X Ht (HsX & HeX).
    destruct (for_seq_inv
      (fun i Y => shape3 N N T Y /\
         forall i' j t', entry3 Y i' j t' =
           if (i' <? i) && (j <? N) && (t' =? t) then q i' j t
           else entry3 X i' j t')
      (fun i xi =>
        for_ (seq 0 N) (fun j xi =>
          numerator <- xi_term alpha beta obs_seq B A i j t ;;
          rows <- gen (seq 0 N) (fun i1 =>
                    inner <- gen (seq 0 N) (fun j1 =>
                               x <- xi_term alpha beta obs_seq B A i1 j1 t ;;
                               Ok (NpFloat x)) ;;
                    Ok (py_sum inner)) ;;
          q <- py_truediv (NpFloat numerator) (py_sum rows) ;;
          set3 xi i j t (to_float q)) xi)
      0 N X) as (Y & EY & HsY & HY).
    + split; [exact HsX|]. intros i' j t'. reflexivity.
    + intros i Y Hi (HsY & HeY).
      destruct (for_seq_inv
        (fun j Z => shape3 N N T Z /\
           forall i' j' t', entry3 Z i' j' t' =
             if (i' =? i) && (j' <? j) && (t' =? t) then q i j' t
             else entry3 Y i' j' t')
        (fun j xi =>
          numerator <- xi_term alpha beta obs_seq B A i j t ;;
          rows <- gen (seq 0 N) (fun i1 =>
                    inner <- gen (seq 0 N) (fun j1 =>
                               x <- xi_term alpha beta obs_seq B A i1 j1 t ;;
                               Ok (NpFloat x)) ;;
                    Ok (py_sum inner)) ;;
          q <- py_truediv (NpFloat numerator) (py_sum rows) ;;
          set3 xi i j t (to_float q))
        0 N Y) as (Z & EZ & HsZ & HZ).
      * split; [exact HsY|]. intros i' j' t'.
        now rewrite andb_false_r.
      * intros j Z Hj (HsZ & HeZ).
        assert (Hq := xi_quotient i j t ltac:(lia) ltac:(lia) ltac:(fold T; lia)).
        destruct (xi_term alpha beta obs_seq B A i j t) as [nu|e];
          [|discriminate]. cbn [bind] in Hq |- *.
        destruct (gen (seq 0 N) _) as [rows|e]; [|discriminate].
        cbn [bind] in Hq |- *. rewrite Hq. cbn [bind to_float].
        destruct (set3_spec N N T Z i j t (q i j t) HsZ)
          as (Z' & EZ' & HsZ' & Hit & Hoth); try lia.
        exists Z'. split; [exact EZ'|]. split; [exact HsZ'|].
        intros i' j' t'.
        destruct (Nat.eq_dec i' i) as [->|Hi'];
          [destruct (Nat.eq_dec j' j) as [->|Hj'];
            [destruct (Nat.eq_dec t' t) as [->|Ht']|]|].
        -- rewrite Hit, !Nat.eqb_refl.
           now rewrite (proj2 (Nat.ltb_lt j (S j))) by lia.
        -- rewrite Hoth by congruence. rewrite HeZ.
           now rewrite (proj2 (Nat.eqb_neq t' t)), !andb_false_r by assumption.
        -- rewrite Hoth by congruence. rewrite HeZ.
           destruct (Nat.ltb_spec j' j), (Nat.ltb_spec j' (S j)); try lia;
             reflexivity.
        -- rewrite Hoth by congruence. rewrite HeZ.
           now rewrite (proj2 (Nat.eqb_neq i' i)) by assumption.
      * exists Z. split; [exact EZ|]. split; [exact HsZ|].
        intros i' j t'. rewrite HZ, HeY. cbn [Nat.add].
        destruct (Nat.eqb_spec i' i) as [->|Hi'].
        -- rewrite Nat.ltb_irrefl.
           rewrite (proj2 (Nat.ltb_lt i (S i))) by lia.
           cbn [andb]. destruct (j <? N), (t' =? t); reflexivity.
        -- cbn [andb].
           destruct (Nat.ltb_spec i' i), (Nat.ltb_spec i' (S i)); try lia;
             reflexivity.
    + exists Y. split; [exact EY|]. split; [exact HsY|].
      intros i j t'. rewrite HY, HeX. cbn [Nat.add].
      destruct (Nat.ltb_spec i N); cbn [andb]; [|reflexivity].
      destruct (Nat.ltb_spec j N); cbn [andb]; [|reflexivity].
      destruct (Nat.eqb_spec t' t) as [->|Hne].
      * now rewrite (proj2 (Nat.ltb_lt t (S t))) by lia.
      * destruct (Nat.ltb_spec t' t), (Nat.ltb_spec t' (S t)); try lia;
          reflexivity.
  - exists X. split; [exact E|]. split; [exact Hs|]. split.
    + intros i j t Hi Hj Ht. rewrite HX. cbn [Nat.add].
      now rewrite !(proj2 (Nat.ltb_lt _ _)) by assumption.
    + intros i j t Ht. rewrite HX. cbn [Nat.add].
      rewrite (proj2 (Nat.ltb_ge t (T - 1))) by assumption.
      now rewrite andb_false_r.
Qed.

End Xi.

(** X12: on lattices of shape N by T and a well-formed model
    [compute_xi] raises nothing and returns an N by N by T array in which,
    for t < T - 1, xi[i][j][t] is
    alpha[i][t] * A[i][j] * B[j][obs[t+1]] * beta[j][t+1] divided by the sum
    of these products over all pairs of states (whatever the denominator),
    and whose last slice t = T - 1 is left at zero. *)
Theorem xi_entries_and_last_slice N M alpha beta A B obs_seq :
  shape N (length obs_seq) alpha -> shape N (length obs_seq) beta ->
  shape N N A -> shape N M B -> obs_valid M obs_seq ->
  exists xi,
    compute_xi alpha beta obs_seq B A = Ok xi /\
    shape3 N N (length obs_seq) xi /\
    (forall i j t, i < N -> j < N -> t < length obs_seq - 1 ->
       entry3 xi i j t = ndiv (xi_num alpha beta obs_seq B A i j t)
                              (xi_den alpha beta obs_seq B A N t)) /\
    (forall i j, entry3 xi i j (length obs_seq - 1) = zero).
Proof.
  intros Ha Hb HA HB Hobs.
  destruct (compute_xi_entries N M alpha beta A B obs_seq Ha Hb HA HB Hobs)
    as (xi & E & Hs & He & Hz).
  exists xi. split; [exact E|]. split; [exact Hs|]. split; [exact He|].
  intros i j. now apply Hz.
Qed.

Lemma xi_entries_and_last_slice_demo :
  exists xi,
    compute_xi sample_alpha sample_beta [0; 0] demo_B skew_A = Ok xi /\
    shape3 2 2 2 xi /\
    (forall i j t, i < 2 -> j < 2 -> t < 1 ->
       entry3 xi i j t = ndiv (xi_num sample_alpha sample_beta [0; 0] demo_B skew_A i j t)
                              (xi_den sample_alpha sample_beta [0; 0] demo_B skew_A 2 t)) /\
    (forall i j, entry3 xi i j 1 = zero).
Proof.
  apply (xi_entries_and_last_slice 2 2 sample_alpha sample_beta skew_A demo_B [0; 0]);
    reflexivity.
Defined.

(** ** One pass of training *)

Lemma get3_entry3 d0 d1 d2 X i j t :
  shape3 d0 d1 d2 X -> i < d0 -> j < d1 -> t < d2 ->
  get3 X i j t = Ok (entry3 X i j t).
Proof.
  intros H Hi Hj Ht. unfold get3.
  rewrite (list_get_nth X i []) by (rewrite (shape3_length _ _ _ _ H); lia).
  cbn [bind]. apply (get2_entry d1 d2); auto.
  now apply (shape3_at d0 d1 d2).
Qed.

Lemma fold_py_add_float (l : vec) (a : num) :
  fold_left py_add (map NpFloat l) (NpFloat a) = NpFloat (fold_left nadd l a).
Proof.
  revert a; induction l as [|x l IH]; intro a; simpl; auto.
Qed.

Lemma py_sum_floats (l : vec) :
  l <> [] -> py_sum (map NpFloat l) = NpFloat (np_sum l).
Proof.
  destruct l as [|x l]; [congruence|]. intros _.
  unfold py_sum, np_sum. cbn [map fold_left]. apply fold_py_add_float.
Qed.

Lemma truediv_sums (l1 l2 : vec) :
  l2 <> [] ->
  py_truediv (py_sum (map NpFloat l1)) (py_sum (map NpFloat l2))
  = Ok (NpFloat (ndiv (np_sum l1) (np_sum l2))).
Proof.
  intro H. rewrite (py_sum_floats l2 H).
  rewrite <- (sum_arr_float l1). unfold sum_arr.
  now destruct (py_sum (map NpFloat l1)).
Qed.

(** Two nested loops that write [F[i, j] = f i j] for every entry. *)
Lemma fill_matrix r c (F0 : mat) (f : nat -> nat -> num)
    (body : nat -> nat -> mat -> res mat) :
  shape r c F0 ->
  (forall i j F, i < r -> j < c -> body i j F = set2 F i j (f i j)) ->
  exists F,
    for_ (seq 0 r) (fun i F => for_ (seq 0 c) (fun j F => body i j F) F) F0
    = Ok F /\
    shape r c F /\
    forall i j, i < r -> j < c -> entry F i j = f i j.
Proof.
  intros H0 Hbody.
  destruct (for_seq_inv
    (fun i F => shape r c F /\
       forall i' j, i' < i -> j < c -> entry F i' j = f i' j)
    (fun i F => for_ (seq 0 c) (fun j F => body i j F) F)
    0 r F0) as (F & E & Hs & HF).
  - split; [exact H0 | intros; lia].
  - intros i F Hi (HsF & HeF).
    destruct (for_seq_inv
      (fun j G => shape r c G /\
         (forall i' j', i' < i -> j' < c -> entry G i' j' = f i' j') /\
         (forall j', j' < j -> entry G i j' = f i j'))
      (fun j G => body i j G) 0 c F) as (G & EG & HsG & HG1 & HG2).
    + split; [exact HsF|]. split; [exact HeF | intros; lia].
    + intros j G Hj (HsG & HG1 & HG2).
      rewrite Hbody by lia.
      destruct (set2_spec r c G i j (f i j) HsG) as (G' & E' & Hs' & Hit & Hoth);
        try lia.
      exists G'. split; [exact E'|]. split; [exact Hs'|]. split.
      * intros i' j' Hi' Hj'. rewrite Hoth by (intro X; inversion X; lia).
        now apply HG1.
      * intros j' Hj'. destruct (Nat.eq_dec j' j) as [->|Hne].
        -- exact Hit.
        -- rewrite Hoth by (intro X; inversion X; lia). apply HG2. lia.
    + exists G. split; [exact EG|]. split; [exact HsG|].
      intros i' j Hi' Hj. destruct (Nat.eq_dec i' i) as [->|Hne].
      * apply HG2. lia.
      * apply HG1; lia.
  - exists F. split; [exact E|]. split; [exact Hs|].
    intros i j Hi Hj. apply HF; lia.
Qed.

Lemma abs_change_ok (old new : mat) :
  old <> [] -> new <> [] -> exists d, abs_change old new = Ok d.
Proof.
  destruct old as [|u old], new as [|v new]; try congruence.
  intros _ _. unfold abs_change. cbn [combine map]. eexists. reflexivity.
Qed.

Lemma emission_width N M (B : mat) :
  1 <= N -> shape N M B ->
  match B with [] => 0 | r :: _ => length r end = M.
Proof.
  intros HN HB. pose proof (shape_row _ _ _ 0 HB ltac:(lia)) as H.
  pose proof (shape_length _ _ _ HB) as HL.
  destruct B; simpl in *; [lia | exact H].
Qed.

Lemma shape_nonempty r c (F : mat) : 1 <= r -> shape r c F -> F <> [].
Proof.
  intros Hr H. pose proof (shape_length _ _ _ H) as HL.
  destruct F; simpl in *; [lia | congruence].
Qed.

Lemma seq_nonempty A (f : nat -> A) a n : 1 <= n -> map f (seq a n) <> [].
Proof. destruct n; simpl; [lia | congruence]. Qed.

(** One pass of training on a well-formed model with one or two states
    and at least two observations. *)
Lemma step_as_coded N M pi B A obs_seq :
  1 <= N <= 2 -> length pi = N -> shape N N A -> shape N M B ->
  obs_valid M obs_seq -> 2 <= length obs_seq ->
  exists alpha beta gamma xi A' B' d,
    calculate_forward_probabilities pi B A obs_seq = Ok alpha /\
    calculate_backward_probabilities B A obs_seq = Ok beta /\
    calculate_gamma alpha beta obs_seq A = Ok gamma /\
    compute_xi alpha beta obs_seq B A = Ok xi /\
    baum_welch_step pi B A obs_seq = Ok (A', B', d) /\
    shape N (length obs_seq) gamma /\
    shape N N A' /\ shape N M B' /\
    (forall i j, i < N -> j < N ->
       entry A' i j = new_transition xi gamma (length obs_seq) i j) /\
    (forall j k, j < N -> k < M ->
       entry B' j k = new_emission gamma obs_seq j k).
Proof.
  intros HN Hpi HA HB Hobs HT.
  pose proof (shape_length _ _ _ HA) as HL.
  destruct (forward_as_coded N M pi B A obs_seq Hpi HA HB Hobs)
    as (alpha & Ea & Hsa & _); [lia|].
  destruct (backward_small_total N M A B obs_seq HA HB Hobs)
    as (beta & Eb & Hsb); [lia | lia |].
  destruct (calculate_gamma_entries alpha beta obs_seq A)
    as (gamma & Eg & Hsg & _); [now rewrite HL | now rewrite HL |].
  rewrite HL in Hsg.
  destruct (compute_xi_entries N M alpha beta A B obs_seq Hsa Hsb HA HB Hobs)
    as (xi & Ex & Hsx & _).
  set (T := length obs_seq) in *.
  destruct (fill_matrix N N A (new_transition xi gamma T)
    (fun i j A =>
       xs <- gen (seq 0 (T - 1)) (fun t =>
               x <- get3 xi i j t ;; Ok (NpFloat x)) ;;
       gs <- gen (seq 0 (T - 1)) (fun t =>
               g <- get2 gamma i t ;; Ok (NpFloat g)) ;;
       q <- py_truediv (py_sum xs) (py_sum gs) ;;
       set2 A i j (to_float q)) HA) as (A' & EA & HsA & HeA).
  { intros i j F Hi Hj.
    rewrite (gen_ok (seq 0 (T - 1)) _ (fun t => NpFloat (entry3 xi i j t))).
    2:{ intros t Ht. apply in_seq in Ht.
        now rewrite (get3_entry3 N N T xi i j t Hsx) by lia. }
    cbn [bind].
    rewrite (gen_ok (seq 0 (T - 1)) _ (fun t => NpFloat (entry gamma i t))).
    2:{ intros t Ht. apply in_seq in Ht.
        now rewrite (get2_entry N T gamma i t Hsg) by lia. }
    cbn [bind].
    rewrite <- (map_map (fun t => entry3 xi i j t) NpFloat).
    rewrite <- (map_map (fun t => entry gamma i t) NpFloat).
    rewrite truediv_sums by (apply seq_nonempty; lia).
    reflexivity. }
  destruct (fill_matrix N M B (new_emission gamma obs_seq)
    (fun j k B =>
       ns <- gen (filter (fun t => nth t obs_seq 0 =? k) (seq 0 T))
               (fun t => g <- get2 gamma j t ;; Ok (NpFloat g)) ;;
       gs <- gen (seq 0 T) (fun t =>
               g <- get2 gamma j t ;; Ok (NpFloat g)) ;;
       q <- py_truediv (py_sum ns) (py_sum gs) ;;
       set2 B j k (to_float q)) HB) as (B' & EB & HsB & HeB).
  { intros j k F Hj Hk.
    rewrite (gen_ok (filter _ (seq 0 T)) _ (fun t => NpFloat (entry gamma j t))).
    2:{ intros t Ht. apply filter_In in Ht as [Ht _]. apply in_seq in Ht.
        now rewrite (get2_entry N T gamma j t Hsg) by lia. }
    cbn [bind].
    rewrite (gen_ok (seq 0 T) _ (fun t => NpFloat (entry gamma j t))).
    2:{ intros t Ht. apply in_seq in Ht.
        now rewrite (get2_entry N T gamma j t Hsg) by lia. }
    cbn [bind].
    rewrite <- !(map_map (fun t => entry gamma j t) NpFloat).
    rewrite truediv_sums by (apply seq_nonempty; lia).
    reflexivity. }
  destruct (abs_change_ok A A') as (dA & EdA);
    [apply (shape_nonempty N N); auto; lia
    | apply (shape_nonempty N N); auto; lia |].
  destruct (abs_change_ok B B') as (dB & EdB);
    [apply (shape_nonempty N M); auto; lia
    | apply (shape_nonempty N M); auto; lia |].
  exists alpha, beta, gamma, xi, A', B'. eexists.
  split; [exact Ea|]. split; [exact Eb|]. split; [exact Eg|].
  split; [exact Ex|]. split.
  - unfold baum_welch_step. rewrite Ea. cbn [bind]. rewrite Eb. cbn [bind].
    rewrite Eg. cbn [bind]. rewrite Ex. cbn [bind].
    rewrite HL, (emission_width N M B) by (auto; lia). fold T.
    cbv beta in EA, EB. rewrite EA. cbn [bind]. rewrite EB. cbn [bind fst snd].
    rewrite EdA. cbn [bind]. rewrite EdB. cbn [bind]. reflexivity.
  - repeat split; auto.
Qed.

(** X14: on a well-formed model with one or two states and at least two
    observations one pass of [baum_welch] raises nothing: the four E-step
    functions return, and the pass writes
    A'[i][j] = (sum over t < T - 1 of xi[i][j][t]) /
               (sum over t < T - 1 of gamma[i][t]) and
    B'[j][k] = (sum of gamma[j][t] over the t with obs[t] = k) /
               (sum over t < T of gamma[j][t]),
    keeping the shapes of both matrices. *)
Theorem train_pass_reestimates N M pi B A obs_seq :
  1 <= N <= 2 -> length pi = N -> shape N N A -> shape N M B ->
  obs_valid M obs_seq -> 2 <= length obs_seq ->
  exists alpha beta gamma xi A' B' d,
    calculate_forward_probabilities pi B A obs_seq = Ok alpha /\
    calculate_backward_probabilities B A obs_seq = Ok beta /\
    calculate_gamma alpha beta obs_seq A = Ok gamma /\
    compute_xi alpha beta obs_seq B A = Ok xi /\
    baum_welch_step pi B A obs_seq = Ok (A', B', d) /\
    shape N N A' /\ shape N M B' /\
    (forall i j, i < N -> j < N ->
       entry A' i j = new_transition xi gamma (length obs_seq) i j) /\
    (forall j k, j < N -> k < M ->
       entry B' j k = new_emission gamma obs_seq j k).
Proof.
  intros HN Hpi HA HB Hobs HT.
  destruct (step_as_coded N M pi B A obs_seq HN Hpi HA HB Hobs HT)
    as (alpha & beta & gamma & xi & A' & B' & d & Ea & Eb & Eg & Ex & E &
        _ & HsA & HsB & HeA & HeB).
  exists alpha, beta, gamma, xi, A', B', d. repeat split; assumption.
Qed.

Lemma train_pass_reestimates_demo :
  exists alpha beta gamma xi A' B' d,
    calculate_forward_probabilities demo_pi demo_B short_A short_obs = Ok alpha /\
    calculate_backward_probabilities demo_B short_A short_obs = Ok beta /\
    calculate_gamma alpha beta short_obs short_A = Ok gamma /\
    compute_xi alpha beta short_obs demo_B short_A = Ok xi /\
    baum_welch_step demo_pi demo_B short_A short_obs = Ok (A', B', d) /\
    shape 2 2 A' /\ shape 2 2 B' /\
    (forall i j, i < 2 -> j < 2 ->
       entry A' i j = new_transition xi gamma 3 i j) /\
    (forall j k, j < 2 -> k < 2 ->
       entry B' j k = new_emission gamma short_obs j k).
Proof.
  apply (train_pass_reestimates 2 2 demo_pi demo_B short_A short_obs);
    try reflexivity; simpl; lia.
Defined.

(** ** Inputs the functions reject or adapt *)

Lemma getcol_out N M (B : mat) o :
  1 <= N -> shape N M B -> M <= o -> getcol B o = Raise IndexError.
Proof.
  intros HN HB Ho. pose proof (shape_row _ _ _ 0 HB ltac:(lia)) as H.
  pose proof (shape_length _ _ _ HB) as HL.
  destruct B as [|v B]; simpl in *; [lia|].
  now rewrite list_get_out by lia.
Qed.

Lemma valid_prefix_nth M obs_seq c t :
  obs_valid M (firstn c obs_seq) -> t < c -> t < length obs_seq ->
  nth t obs_seq 0 < M.
Proof.
  intros H Ht Hl.
  pose proof (obs_valid_nth M (firstn c obs_seq) t H) as H'.
  rewrite length_firstn in H'. specialize (H' ltac:(lia)).
  rewrite <- (firstn_skipn c obs_seq) at 1.
  rewrite app_nth1 by (rewrite length_firstn; lia). exact H'.
Qed.

Lemma forward_inner_ok N T A F c :
  shape N N A -> shape N T F -> 1 <= c < T ->
  exists G,
    for_ (seq 0 N) (fun r F =>
      prev <- getcol F (c - 1) ;;
      a <- getrow A r ;;
      p <- bmul prev a ;;
      set2 F r c (to_float (sum_arr p))) F = Ok G /\
    shape N T G.
Proof.
  intros HA HF Hc.
  destruct (for_seq_inv (fun _ G => shape N T G)
    (fun r F =>
      prev <- getcol F (c - 1) ;;
      a <- getrow A r ;;
      p <- bmul prev a ;;
      set2 F r c (to_float (sum_arr p))) 0 N F HF) as (G & E & HG).
  - intros r G Hr HsG.
    rewrite (getcol_column N T G (c - 1) HsG) by lia. cbn [bind].
    unfold getrow.
    rewrite (list_get_nth A r []) by (rewrite (shape_length _ _ _ HA); lia).
    cbn [bind].
    rewrite bmul_same_length
      by (rewrite length_column, (shape_row _ _ _ r HA); lia).
    cbn [bind].
    destruct (set2_spec N T G r c
                (to_float (sum_arr (zip_with nmul (column G N (c - 1))
                                                  (nth r A [])))) HsG)
      as (G' & E' & Hs' & _); try lia.
    now exists G'.
  - now exists G.
Qed.

Lemma forward_column_ok N M T A B obs_seq F c :
  shape N N A -> shape N M B -> shape N T F -> 1 <= c < T ->
  c < length obs_seq -> nth c obs_seq 0 < M ->
  exists F',
    (F <- for_ (seq 0 N) (fun r F =>
            prev <- getcol F (c - 1) ;;
            a <- getrow A r ;;
            p <- bmul prev a ;;
            set2 F r c (to_float (sum_arr p))) F ;;
     fc <- getcol F c ;;
     oc <- list_get obs_seq c ;;
     ec <- getcol B oc ;;
     v <- bmul fc ec ;;
     setcol F c v) = Ok F' /\
    shape N T F'.
Proof.
  intros HA HB HF Hc Hl Ho.
  destruct (forward_inner_ok N T A F c HA HF Hc) as (G & E & HG).
  rewrite E. cbn [bind].
  rewrite (getcol_column N T G c HG) by lia. cbn [bind].
  rewrite (list_get_nth obs_seq c 0) by assumption. cbn [bind].
  rewrite (getcol_column N M B _ HB) by assumption. cbn [bind].
  rewrite bmul_same_length by (now rewrite !length_column). cbn [bind].
  destruct (setcol_spec N T G c
              (zip_with nmul (column G N c) (column B N (nth c obs_seq 0))) HG)
    as (F' & E' & Hs' & _); [lia | |].
  - rewrite (zip_with_lists nmul _ _ N) by apply length_column.
    now rewrite length_map, length_seq.
  - now exists F'.
Qed.

(** X16: an observation that is not below the number of symbols makes
    [calculate_forward_probabilities] raise [IndexError], wherever in the
    sequence it stands (the columns before it are computed first). *)
Theorem forward_rejects_unknown_symbol N M pi B A obs_seq c :
  1 <= N -> length pi = N -> shape N N A -> shape N M B ->
  c < length obs_seq -> obs_valid M (firstn c obs_seq) ->
  M <= nth c obs_seq 0 ->
  calculate_forward_probabilities pi B A obs_seq = Raise IndexError.
Proof.
  intros HN Hpi HA HB Hc Hpre Hbad.
  unfold calculate_forward_probabilities.
  rewrite (shape_length _ _ _ HA).
  set (T := length obs_seq) in *.
  rewrite (list_get_nth obs_seq 0 0) by (fold T; lia). cbn [bind].
  destruct c as [|c].
  - now rewrite (getcol_out N M B _ HN HB Hbad).
  - assert (Hv : forall t, t < S c -> nth t obs_seq 0 < M)
      by (intros t Ht; apply (valid_prefix_nth M obs_seq (S c)); auto; fold T; lia).
    rewrite (getcol_column N M B _ HB) by (apply Hv; lia). cbn [bind].
    rewrite bmul_same_length by (now rewrite length_column). cbn [bind].
    destruct (setcol_spec N T (zeros N T) 0
                (zip_with nmul pi (column B N (nth 0 obs_seq 0))))
      as (F0 & E0 & Hs0 & _); [apply shape_zeros | lia | |].
    { rewrite (zip_with_lists nmul _ _ N) by (auto; apply length_column).
      now rewrite length_map, length_seq. }
    rewrite E0. cbn [bind].
    replace (T - 1) with (c + (T - S c)) by lia.
    rewrite seq_app, for_app.
    destruct (for_seq_inv (fun _ F => shape N T F)
      (fun c F =>
         F <- for_ (seq 0 N) (fun r F =>
                prev <- getcol F (c - 1) ;;
                a <- getrow A r ;;
                p <- bmul prev a ;;
                set2 F r c (to_float (sum_arr p))) F ;;
         fc <- getcol F c ;;
         oc <- list_get obs_seq c ;;
         ec <- getcol B oc ;;
         v <- bmul fc ec ;;
         setcol F c v) 1 c F0 Hs0) as (F1 & E1 & Hs1).
    + intros t F Ht HsF.
      apply (forward_column_ok N M T A B obs_seq F t); auto;
        try (fold T; lia).
      apply Hv. lia.
    + rewrite E1. cbn [bind].
      destruct (T - S c) as [|k] eqn:Ek; [lia|].
      cbn [seq for_ Nat.add].
      destruct (forward_inner_ok N T A F1 (S c) HA Hs1) as (G & EG & HsG);
        [lia|].
      rewrite EG. cbn [bind].
      rewrite (getcol_column N T G (S c) HsG) by lia. cbn [bind].
      rewrite (list_get_nth obs_seq (S c) 0) by (fold T; lia). cbn [bind].
      now rewrite (getcol_out N M B _ HN HB Hbad).
Qed.

Lemma forward_rejects_unknown_symbol_demo :
  calculate_forward_probabilities demo_pi demo_B skew_A [0; 1; 2; 0]
  = Raise IndexError.
Proof.
  apply (forward_rejects_unknown_symbol 2 2 demo_pi demo_B skew_A [0; 1; 2; 0] 2);
    try reflexivity; simpl; lia.
Defined.

Lemma bmul_mismatch (a b : vec) :
  length a <> length b -> length a <> 1 -> length b <> 1 ->
  bmul a b = Raise ValueError.
Proof.
  intros H Ha Hb. unfold bmul.
  destruct (Nat.eqb_spec (length a) (length b)) as [|_]; [contradiction|].
  destruct a as [|x [|x' a]], b as [|y [|y' b]]; simpl in *;
    try lia; reflexivity.
Qed.

(** X17: an initial distribution whose length is neither the number of
    states nor 1 makes [calculate_forward_probabilities] and [viterbi]
    raise [ValueError] (numpy cannot broadcast the product), and [viterbi]
    leaves its list untouched. *)
Theorem initial_length_mismatch_raises N M pi B A obs_seq st :
  shape N M B -> 1 <= length obs_seq -> nth 0 obs_seq 0 < M ->
  length pi <> N -> length pi <> 1 -> N <> 1 ->
  calculate_forward_probabilities pi B A obs_seq = Raise ValueError /\
  viterbi pi B A obs_seq st = (Raise ValueError, st).
Proof.
  intros HB HT Ho H1 H2 H3.
  assert (E : (o0 <- list_get obs_seq 0 ;;
               e0 <- getcol B o0 ;;
               bmul pi e0) = Raise ValueError).
  { rewrite (list_get_nth obs_seq 0 0) by lia. cbn [bind].
    rewrite (getcol_column N M B _ HB) by assumption. cbn [bind].
    apply bmul_mismatch; rewrite ?length_column; auto. }
  split.
  - unfold calculate_forward_probabilities.
    destruct (list_get obs_seq 0) as [o0|e]; cbn [bind] in E |- *;
      [|congruence].
    destruct (getcol B o0) as [e0|e]; cbn [bind] in E |- *; [|congruence].
    now rewrite E.
  - unfold viterbi, sbind, lift.
    destruct (list_get obs_seq 0) as [o0|e]; cbn [bind] in E |- *;
      [|congruence].
    destruct (getcol B o0) as [e0|e]; cbn [bind] in E |- *; [|congruence].
    now rewrite E.
Qed.

Lemma initial_length_mismatch_raises_demo :
  calculate_forward_probabilities [frac 1 3; frac 1 3; frac 1 3] demo_B skew_A [0; 1]
  = Raise ValueError /\
  viterbi [frac 1 3; frac 1 3; frac 1 3] demo_B skew_A [0; 1] [PInt 1]
  = (Raise ValueError, [PInt 1]).
Proof.
  apply (initial_length_mismatch_raises 2 2 _ demo_B skew_A [0; 1] [PInt 1]);
    try reflexivity; simpl; lia.
Defined.

Lemma zip_with_repeat (p : num) (e : vec) :
  zip_with nmul (repeat p (length e)) e = map (nmul p) e.
Proof. induction e as [|y e IH]; simpl; [reflexivity | now rewrite IH]. Qed.

Lemma getcol_length (F : mat) c v : getcol F c = Ok v -> length v = length F.
Proof.
  revert v; induction F as [|u F IH]; intros v; simpl.
  - now intros [= <-].
  - destruct (list_get u c); cbn [bind]; [|discriminate].
    destruct (getcol F c) as [xs|]; cbn [bind]; [|discriminate].
    intros [= <-]. simpl. now rewrite (IH xs).
Qed.

(** X18: an initial distribution with a single entry is accepted:
    numpy broadcasts it, and [calculate_forward_probabilities] behaves as
    if every state had that initial probability. *)
Theorem single_initial_probability_is_broadcast p B A obs_seq :
  length B = length A ->
  calculate_forward_probabilities [p] B A obs_seq
  = calculate_forward_probabilities (repeat p (length A)) B A obs_seq.
Proof.
  intro HL. unfold calculate_forward_probabilities.
  destruct (list_get obs_seq 0) as [o0|e]; cbn [bind]; [|reflexivity].
  destruct (getcol B o0) as [e0|e] eqn:E; cbn [bind]; [|reflexivity].
  apply getcol_length in E. rewrite HL in E. rewrite <- E.
  replace (bmul (repeat p (length e0)) e0) with (Ok (map (nmul p) e0)).
  - replace (bmul [p] e0) with (Ok (map (nmul p) e0)); [reflexivity|].
    unfold bmul. destruct e0 as [|y [|z e0]]; reflexivity.
  - unfold bmul. rewrite repeat_length, Nat.eqb_refl.
    now rewrite zip_with_repeat.
Qed.

Lemma single_initial_probability_is_broadcast_demo :
  calculate_forward_probabilities [frac 1 2] demo_B skew_A demo_obs
  = calculate_forward_probabilities (repeat (frac 1 2) (length skew_A))
      demo_B skew_A demo_obs.
Proof.
  apply (single_initial_probability_is_broadcast (frac 1 2) demo_B skew_A demo_obs).
  reflexivity.
Defined.

(** X19: with no observation, [calculate_forward_probabilities],
    [calculate_backward_probabilities] and [viterbi] raise [IndexError]
    whatever the model, [viterbi] leaves its list untouched, and
    [baum_welch] raises [IndexError] in its first pass. *)
Theorem empty_observations_raise pi B A st passes :
  calculate_forward_probabilities pi B A [] = Raise IndexError /\
  calculate_backward_probabilities B A [] = Raise IndexError /\
  viterbi pi B A [] st = (Raise IndexError, st) /\
  baum_welch (S passes) pi B A [] = Raised IndexError.
Proof.
  repeat split; reflexivity.
Qed.

Lemma while_settles N M pi obs_seq :
  1 <= N <= 2 -> length pi = N -> obs_valid M obs_seq ->
  2 <= length obs_seq ->
  forall p d B A, shape N N A -> shape N M B ->
    settles_in_shape N M pi (baum_welch_while p d pi B A obs_seq).
Proof.
  intros HN Hpi Hobs HT. induction p as [|p IH]; intros d B A HA HB;
    cbn [baum_welch_while]; destruct (ngt d threshold); cbn; auto.
  destruct (step_as_coded N M pi B A obs_seq HN Hpi HA HB Hobs HT)
    as (alpha & beta & gamma & xi & A' & B' & d' & _ & _ & _ & _ & E &
        _ & HsA & HsB & _).
  rewrite E. now apply IH.
Qed.

(** X20: on a well-formed model with one or two states and at least two
    observations [baum_welch] never raises, however many passes it runs:
    it is still running, or it has returned matrices of the model's shape
    together with the initial distribution it was given. *)
Theorem train_never_raises_on_small_models N M pi B A obs_seq passes :
  1 <= N <= 2 -> length pi = N -> shape N N A -> shape N M B ->
  obs_valid M obs_seq -> 2 <= length obs_seq ->
  settles_in_shape N M pi (baum_welch passes pi B A obs_seq).
Proof.
  intros HN Hpi HA HB Hobs HT. unfold baum_welch.
  now apply (while_settles N M pi obs_seq).
Qed.

Lemma train_never_raises_on_small_models_demo :
  settles_in_shape 2 2 demo_pi (baum_welch 1 demo_pi demo_B short_A short_obs).
Proof.
  apply (train_never_raises_on_small_models 2 2 demo_pi demo_B short_A short_obs 1);
    try reflexivity; simpl; lia.
Defined.

(** ** Decoding and labelling in one session *)



(** ** What the backward pass reads *)

Lemma for_ext {S} (l : list nat) (f g : nat -> S -> res S) s :
  (forall i s, In i l -> f i s = g i s) -> for_ l f s = for_ l g s.
Proof.
  revert s; induction l as [|i l IH]; intros s H; cbn [for_]; auto.
  rewrite (H i s) by (now left).
  destruct (g i s); cbn [bind]; auto.
  apply IH. intros; apply H; now right.
Qed.

Lemma bind_ext {A B} (m : res A) (f g : A -> res B) :
  (forall a, f a = g a) -> bind m f = bind m g.
Proof. intro H. destruct m; cbn [bind]; auto. Qed.

(** X22: [calculate_backward_probabilities] never reads the last
    observation: replacing it by any other value, in or out of the
    alphabet, changes neither the lattice nor the exception of the call. *)
Theorem backward_ignores_last_observation B A obs_seq o o' :
  calculate_backward_probabilities B A (obs_seq ++ [o])
  = calculate_backward_probabilities B A (obs_seq ++ [o']).
Proof.
  unfold calculate_backward_probabilities.
  rewrite !length_app. cbn [length].
  replace (length obs_seq + 1 - 1) with (length obs_seq) by lia.
  apply bind_ext. intro F0.
  apply for_ext. intros c F1 Hc.
  apply in_rev, in_seq in Hc.
  apply for_ext. intros r F2 _.
  repeat (apply bind_ext; intro).
  unfold list_get. rewrite !nth_error_app1 by lia. reflexivity.
Qed.
